(** * AUSampler: the microtonal tuning engine and the note tracker

    A shallow embedding of [AUSampler.js]: the scale table built by
    [initializeDefaultScale] and [handleSclFile], the pitch resolver
    [calculatePitchRatio], the note tracker [playNote] / [stopNote], the
    input handlers that drive them and the keys [drawPiano] draws.

    Conventions of the embedding.
    - JavaScript numbers are modelled by their exact values.  Integers (note
      numbers, indices, counts) are [Z]; parsed decimals are [Q]; a pitch
      ratio is [m * 2^x] with rational [m] and [x], kept in the normal form
      [0 <= x < 1], which is closed under the operations the program applies
      to ratios ([*] and [Math.pow(2, _)]) and has decidable equality.  [NaN]
      and the two infinities are explicit.  Rounding of IEEE doubles, signed
      zeros and overflow are not modelled.
    - Strings are sequences of code units below 256.
    - The globals of the script are the fields of [state]; every function of
      the script that touches them takes and returns a [state].
    - The calls made on the p5 sound object are appended to the [audio] log
      as they are sent: the object that [sound] holds at the time of the
      call, and the method with its argument.  No call names a note. *)

From Stdlib Require Import ZArith QArith Qround Qpower Qcanon List String Ascii.
From Stdlib Require Import Bool Lia Lqa.
Import ListNotations.

Local Open Scope Z_scope.

(** ** Numbers of the JavaScript runtime *)

Module JS.

(** A number is [NaN], an infinity, or a finite value of type [A]. *)
Inductive ext (A : Type) : Type :=
| NaN
| Inf (neg : bool)
| Fin (a : A).

Arguments NaN {A}.
Arguments Inf {A} neg.
Arguments Fin {A} a.

(** The finite value [mant * 2^expo]. *)
Record real : Type := mkReal { mant : Q; expo : Q }.

Definition integer : Type := ext Z.
Definition rational : Type := ext Q.
Definition number : Type := ext real.

Definition Qnegative (q : Q) : bool := (Qnum q <? 0)%Z.

(** Normal form: the exponent is brought into [0, 1) and both components
    are reduced; zero has exponent 0. *)
Definition normal (m x : Q) : real :=
  if Qeq_bool m 0 then mkReal 0 0
  else let k := Qfloor x in
       mkReal (Qred (m * (2 ^ k))) (Qred (x - inject_Z k)).

Definition real_of_Q (q : Q) : real := normal q 0.
Definition real_eqb (a b : real) : bool :=
  Qeq_bool (mant a) (mant b) && Qeq_bool (expo a) (expo b).

Definition of_Z (n : Z) : number := Fin (real_of_Q (inject_Z n)).

Definition of_rational (a : rational) : number :=
  match a with
  | NaN => NaN
  | Inf s => Inf s
  | Fin q => Fin (real_of_Q q)
  end.

Definition rational_of_integer (a : integer) : rational :=
  match a with
  | NaN => NaN
  | Inf s => Inf s
  | Fin n => Fin (inject_Z n)
  end.

(** [a * b] on pitch ratios. *)
Definition mul (a b : number) : number :=
  match a, b with
  | NaN, _ | _, NaN => NaN
  | Fin x, Fin y => Fin (normal (mant x * mant y) (expo x + expo y))
  | Inf s, Inf t => Inf (xorb s t)
  | Inf s, Fin y | Fin y, Inf s =>
      if Qeq_bool (mant y) 0 then NaN else Inf (xorb s (Qnegative (mant y)))
  end.

(** [a / b] on parsed decimals and integers. *)
Definition div (a b : rational) : rational :=
  match a, b with
  | NaN, _ | _, NaN => NaN
  | Inf _, Inf _ => NaN
  | Inf s, Fin y => Inf (xorb s (Qnegative y))
  | Fin _, Inf _ => Fin 0%Q
  | Fin x, Fin y =>
      if Qeq_bool y 0
      then (if Qeq_bool x 0 then NaN else Inf (Qnegative x))
      else Fin (Qred (x / y))
  end.

(** [a + b] and [a - b] on integers. *)
Definition add (a b : integer) : integer :=
  match a, b with
  | NaN, _ | _, NaN => NaN
  | Fin x, Fin y => Fin (x + y)
  | Inf s, Inf t => if Bool.eqb s t then Inf s else NaN
  | Inf s, Fin _ | Fin _, Inf s => Inf s
  end.

Definition neg (a : integer) : integer :=
  match a with
  | NaN => NaN
  | Inf s => Inf (negb s)
  | Fin x => Fin (- x)
  end.

Definition sub (a b : integer) : integer := add a (neg b).

(** [a % b]: the remainder has the sign of the dividend. *)
Definition rem (a b : integer) : integer :=
  match a, b with
  | NaN, _ | _, NaN => NaN
  | Inf _, _ => NaN
  | Fin x, Inf _ => Fin x
  | Fin x, Fin y => if y =? 0 then NaN else Fin (Z.rem x y)
  end.

Definition Math_floor (a : rational) : integer :=
  match a with
  | NaN => NaN
  | Inf s => Inf s
  | Fin q => Fin (Qfloor q)
  end.

(** [Math.pow(2, x)]: every call of [Math.pow] in the script has base 2. *)
Definition Math_pow2 (x : rational) : number :=
  match x with
  | NaN => NaN
  | Inf false => Inf false
  | Inf true => Fin (mkReal 0 0)
  | Fin q => Fin (normal 1 q)
  end.

Definition isNaN {A : Type} (a : ext A) : bool :=
  match a with
  | NaN => true
  | _ => false
  end.

(** [a === b] on numbers. *)
Definition strict_eq (a b : number) : bool :=
  match a, b with
  | Fin x, Fin y => real_eqb x y
  | Inf s, Inf t => Bool.eqb s t
  | _, _ => false
  end.

(** [a <= 0] on an integer. *)
Definition le_zero (a : integer) : bool :=
  match a with
  | NaN => false
  | Inf s => s
  | Fin x => x <=? 0
  end.

(** [arr[i]]: [None] is [undefined]. *)
Definition index {A : Type} (arr : list A) (i : integer) : option A :=
  match i with
  | Fin n => if n <? 0 then None else nth_error arr (Z.to_nat n)
  | _ => None
  end.

(** An operand that may be [undefined] becomes [NaN]. *)
Definition to_number (v : option number) : number :=
  match v with
  | Some r => r
  | None => NaN
  end.

End JS.

Export JS.

(** ** Strings of the JavaScript runtime *)

Module Str.

Local Open Scope nat_scope.

(** White space and line terminators, as [trim], [parseInt] and
    [parseFloat] skip them. *)
Definition is_white_space (c : ascii) : bool :=
  let n := nat_of_ascii c in
  ((9 <=? n) && (n <=? 13)) || (n =? 32) || (n =? 160).

Definition is_empty (s : string) : bool :=
  match s with
  | EmptyString => true
  | String _ _ => false
  end.

Fixpoint trimStart (s : string) : string :=
  match s with
  | EmptyString => EmptyString
  | String c r => if is_white_space c then trimStart r else s
  end.

Fixpoint trimEnd (s : string) : string :=
  match s with
  | EmptyString => EmptyString
  | String c r =>
      let r' := trimEnd r in
      if is_white_space c && is_empty r' then EmptyString else String c r'
  end.

Definition trim (s : string) : string := trimEnd (trimStart s).

Definition startsWith (s p : string) : bool := String.prefix p s.

Definition endsWith (s suffix : string) : bool :=
  let n := String.length s in
  let k := String.length suffix in
  (k <=? n) && String.eqb (substring (n - k) k s) suffix.

Fixpoint includes (s : string) (c : ascii) : bool :=
  match s with
  | EmptyString => false
  | String d r => Ascii.eqb d c || includes r c
  end.

(** [s.split(sep)] for a separator of one character: never empty. *)
Fixpoint split (s : string) (sep : ascii) : list string :=
  match s with
  | EmptyString => [EmptyString]
  | String c r =>
      if Ascii.eqb c sep then EmptyString :: split r sep
      else match split r sep with
           | hd :: tl => String c hd :: tl
           | [] => [String c EmptyString]
           end
  end.

Definition lower_char (c : ascii) : ascii :=
  let n := nat_of_ascii c in
  if ((65 <=? n) && (n <=? 90))
     || ((192 <=? n) && (n <=? 222) && negb (n =? 215))
  then ascii_of_nat (n + 32) else c.

Fixpoint toLowerCase (s : string) : string :=
  match s with
  | EmptyString => EmptyString
  | String c r => String (lower_char c) (toLowerCase r)
  end.

(** The value of a digit or letter in a radix up to 36. *)
Definition digit_value (c : ascii) : option Z :=
  let n := nat_of_ascii c in
  if (48 <=? n) && (n <=? 57) then Some (Z.of_nat (n - 48))
  else if (97 <=? n) && (n <=? 122) then Some (Z.of_nat (n - 87))
  else if (65 <=? n) && (n <=? 90) then Some (Z.of_nat (n - 55))
  else None.

(** An optional sign: whether it is a minus, and the rest. *)
Definition read_sign (s : string) : bool * string :=
  match s with
  | String "-"%char r => (true, r)
  | String "+"%char r => (false, r)
  | _ => (false, s)
  end.

(** The longest prefix of digits of the radix: its value, the number of
    digits read and the rest of the string. *)
Fixpoint read_digits (radix : Z) (s : string) (acc : Z) (n : nat)
  : Z * nat * string :=
  match s with
  | EmptyString => (acc, n, s)
  | String c r =>
      match digit_value c with
      | Some d =>
          if (d <? radix)%Z
          then read_digits radix r (radix * acc + d)%Z (S n)
          else (acc, n, s)
      | None => (acc, n, s)
      end
  end.

(** [parseInt(s)] with no radix argument. *)
Definition parseInt (s : string) : integer :=
  let '(minus, s1) := read_sign (trimStart s) in
  let '(radix, s2) :=
    match s1 with
    | String "0"%char (String "x"%char r) => (16%Z, r)
    | String "0"%char (String "X"%char r) => (16%Z, r)
    | _ => (10%Z, s1)
    end in
  let '(v, n, _) := read_digits radix s2 0%Z 0 in
  if n =? 0 then NaN else Fin (if minus then (- v)%Z else v).

(** [parseFloat(s)]: the longest prefix that is a decimal literal. *)
Definition parseFloat (s : string) : rational :=
  let '(minus, s1) := read_sign (trimStart s) in
  if startsWith s1 "Infinity" then Inf minus
  else
    let '(i, ni, s2) := read_digits 10 s1 0%Z 0 in
    let '(m, nf, s3) :=
      match s2 with
      | String "."%char r => read_digits 10 r i 0
      | _ => (i, 0, s2)
      end in
    if (ni =? 0) && (nf =? 0) then NaN
    else
      let e :=
        match s3 with
        | String c r =>
            if Ascii.eqb c "e" || Ascii.eqb c "E"
            then let '(eminus, r1) := read_sign r in
                 let '(ev, ne, _) := read_digits 10 r1 0%Z 0 in
                 if ne =? 0 then 0%Z else if eminus then (- ev)%Z else ev
            else 0%Z
        | EmptyString => 0%Z
        end in
      let q := Qred (inject_Z m * 10 ^ (e - Z.of_nat nf))%Q in
      Fin (if minus then Qred (- q) else q).

End Str.

(** ** The globals of the script *)

(** What a note variable can hold: a note number, or [undefined] when the
    keyboard table has no entry; [Null] is the literal the handlers compare
    it with. *)
Inductive value : Type :=
| Undefined
| Null
| Num (n : Z).

Definition value_eqb (a b : value) : bool :=
  match a, b with
  | Undefined, Undefined => true
  | Null, Null => true
  | Num x, Num y => x =? y
  | _, _ => false
  end.

(** [a !== b] *)
Definition strict_neq (a b : value) : bool := negb (value_eqb a b).

(** The operand of an arithmetic operator. *)
Definition ToNumber (v : value) : integer :=
  match v with
  | Undefined => NaN
  | Null => Fin 0
  | Num n => Fin n
  end.

(** A method called on a p5 sound object: [rate(ratio)], [play()] or
    [stop()]. *)
Inductive audio_call : Type :=
| Rate (ratio : number)
| Play
| Stop.

(** The messages of [console.error]. *)
Inductive error : Type :=
| InvalidScaleFileFormat
| InvalidNumberOfNotes
| NoValidRatios.

(** An uploaded file: its name, its MIME type and its text. *)
Record file : Type := mkFile {
  file_name : string;
  file_type : string;
  file_text : string
}.

(** The globals.  [sound] holds the handle of the loaded sample;
    [soundPlayers] and [isPlaying] are objects used as maps, kept as
    association lists in insertion order and keyed by the note whose
    property name they use; [pressedKeys] is a [Set].  [audio] is the log
    of the calls sent to sound objects, each with its receiver. *)
Record state : Type := mkState {
  sound : option nat;
  soundPlayers : list Z;
  isPlaying : list (value * bool);
  sampleLoaded : bool;
  scaleLoaded : bool;
  pressedKeys : list value;
  scaleRatios : list number;
  baseNote : Z;
  audio : list (option nat * audio_call);
  console_error : list error
}.

Definition init : state :=
  mkState None [] [] false false [] [] 60 [] [].

Definition set_sound (h : nat) (s : state) : state :=
  mkState (Some h) (soundPlayers s) (isPlaying s) (sampleLoaded s)
    (scaleLoaded s) (pressedKeys s) (scaleRatios s) (baseNote s) (audio s)
    (console_error s).

Definition set_soundPlayers (p : list Z) (s : state) : state :=
  mkState (sound s) p (isPlaying s) (sampleLoaded s) (scaleLoaded s)
    (pressedKeys s) (scaleRatios s) (baseNote s) (audio s) (console_error s).

Definition set_isPlaying (p : list (value * bool)) (s : state) : state :=
  mkState (sound s) (soundPlayers s) p (sampleLoaded s) (scaleLoaded s)
    (pressedKeys s) (scaleRatios s) (baseNote s) (audio s) (console_error s).

Definition set_sampleLoaded (b : bool) (s : state) : state :=
  mkState (sound s) (soundPlayers s) (isPlaying s) b (scaleLoaded s)
    (pressedKeys s) (scaleRatios s) (baseNote s) (audio s) (console_error s).

Definition set_scaleLoaded (b : bool) (s : state) : state :=
  mkState (sound s) (soundPlayers s) (isPlaying s) (sampleLoaded s) b
    (pressedKeys s) (scaleRatios s) (baseNote s) (audio s) (console_error s).

Definition set_pressedKeys (k : list value) (s : state) : state :=
  mkState (sound s) (soundPlayers s) (isPlaying s) (sampleLoaded s)
    (scaleLoaded s) k (scaleRatios s) (baseNote s) (audio s)
    (console_error s).

Definition set_scaleRatios (r : list number) (s : state) : state :=
  mkState (sound s) (soundPlayers s) (isPlaying s) (sampleLoaded s)
    (scaleLoaded s) (pressedKeys s) r (baseNote s) (audio s)
    (console_error s).

(** [sound.c]: one call, received by the object that [sound] holds now.
    The receiver [None] is [undefined], on which the script would throw; no
    reachable state makes such a call. *)
Definition call (c : audio_call) (s : state) : state :=
  mkState (sound s) (soundPlayers s) (isPlaying s) (sampleLoaded s)
    (scaleLoaded s) (pressedKeys s) (scaleRatios s) (baseNote s)
    (audio s ++ [(sound s, c)]) (console_error s).

Definition console_error_log (e : error) (s : state) : state :=
  mkState (sound s) (soundPlayers s) (isPlaying s) (sampleLoaded s)
    (scaleLoaded s) (pressedKeys s) (scaleRatios s) (baseNote s) (audio s)
    (console_error s ++ [e]).

(** ** Objects used as maps, and the [Set] of pressed keys *)

(** [obj[k]]: [None] is [undefined]. *)
Fixpoint get {A : Type} (obj : list (value * A)) (k : value) : option A :=
  match obj with
  | [] => None
  | (k', v) :: rest => if value_eqb k' k then Some v else get rest k
  end.

(** [obj[k] = v]: an existing property keeps its place. *)
Fixpoint put {A : Type} (obj : list (value * A)) (k : value) (v : A)
  : list (value * A) :=
  match obj with
  | [] => [(k, v)]
  | (k', v') :: rest =>
      if value_eqb k' k then (k, v) :: rest else (k', v') :: put rest k v
  end.

(** The truth value of [obj[k]] for an object of booleans. *)
Definition truthy (v : option bool) : bool :=
  match v with
  | Some b => b
  | None => false
  end.

(** A property name that is an array index: those come first in
    [Object.keys], in ascending order. *)
Definition is_array_index (k : value) : bool :=
  match k with
  | Num n => (0 <=? n) && (n <? 4294967295)
  | _ => false
  end.

Fixpoint insert_sorted (k : Z) (l : list Z) : list Z :=
  match l with
  | [] => [k]
  | x :: rest => if k <=? x then k :: l else x :: insert_sorted k rest
  end.

Definition sort_indices (l : list value) : list value :=
  map Num
    (fold_right insert_sorted []
       (flat_map (fun k => match k with Num n => [n] | _ => [] end) l)).

Definition Object_keys {A : Type} (obj : list (value * A)) : list value :=
  let ks := map fst obj in
  sort_indices (filter is_array_index ks)
    ++ filter (fun k => negb (is_array_index k)) ks.

Definition set_has (s : list value) (k : value) : bool :=
  existsb (value_eqb k) s.

Definition set_add (s : list value) (k : value) : list value :=
  if set_has s k then s else s ++ [k].

Definition set_delete (s : list value) (k : value) : list value :=
  filter (fun x => negb (value_eqb k x)) s.

(** ** The scale table *)

Import Str.

Definition one : number := of_Z 1.
Definition two : number := of_Z 2.

(** [initializeDefaultScale]: unison, [Math.pow(2, i/12)] for [i] from 1 to
    11, then the octave. *)
Definition initializeDefaultScale (s : state) : state :=
  let ratios :=
    fold_left
      (fun acc i => acc ++ [Math_pow2 (div (Fin (inject_Z i)) (Fin 12%Q))])
      (map Z.of_nat (seq 1 11)) [one] in
  set_scaleLoaded true (set_scaleRatios (ratios ++ [two]) s).

(** [denom !== 0] *)
Definition nonzero (a : rational) : bool :=
  match a with
  | Fin q => negb (Qeq_bool q 0)
  | _ => true
  end.

(** [parseScalaRatio]: [None] is [null]. *)
Definition parseScalaRatio (line : string) : option number :=
  let line := trim (hd EmptyString (split line "!")) in
  if is_empty line then None
  else if includes line "/" then
    let parts := map (fun x => parseFloat (trim x)) (split line "/") in
    let num := nth 0 parts NaN in
    let denom := nth 1 parts NaN in
    if negb (isNaN num) && negb (isNaN denom) && nonzero denom
    then Some (of_rational (div num denom))
    else None
  else
    let cents := parseFloat line in
    if negb (isNaN cents)
    then Some (Math_pow2 (div cents (Fin 1200%Q)))
    else None.

(** [mod]: the remainder brought into [0, m). *)
Definition mod_ (n m : integer) : integer := rem (add (rem n m) m) m.

(** [calculatePitchRatio] *)
Definition calculatePitchRatio (s : state) (midiNote : value) : number :=
  let steps := sub (ToNumber midiNote) (Fin (baseNote s)) in
  let len : integer := Fin (Z.of_nat (List.length (scaleRatios s))) in
  let octaves :=
    Math_floor (div (rational_of_integer steps) (rational_of_integer len)) in
  let scaleIndex := mod_ steps len in
  mul (to_number (JS.index (scaleRatios s) scaleIndex))
      (Math_pow2 (rational_of_integer octaves)).

(** The body of the loop of [createPitchedSamples]: the sample pitched for
    one note. *)
Definition pitch_sample (st : state) (noteNumber : Z) : state :=
  let ratio := calculatePitchRatio st (Num noteNumber) in
  let st' := call (Rate ratio) st in
  if existsb (Z.eqb noteNumber) (soundPlayers st') then st'
  else set_soundPlayers (soundPlayers st' ++ [noteNumber]) st'.

(** [createPitchedSamples] *)
Definition createPitchedSamples (s : state) : state :=
  match sound s with
  | None => s
  | Some _ =>
      if negb (scaleLoaded s) then s
      else
        let len := Z.of_nat (List.length (scaleRatios s)) in
        let noteNumbers :=
          flat_map
            (fun octave =>
               map (fun i => baseNote s + octave * len + Z.of_nat i)
                   (seq 0 (List.length (scaleRatios s))))
            [0; 1] in
        fold_left pitch_sample noteNumbers (set_soundPlayers [] s)
  end.

(** [handleSclFile], up to the start of the read: the state, and whether
    the reader was started. *)
Definition handleSclFile (f : file) (s : state) : state * bool :=
  if negb (endsWith (file_name f) ".scl") then (s, false)
  else (set_scaleRatios [] s, true).

(** The ratios pushed by the loop over the data lines. *)
Definition push_ratios (acc : list number) (lines : list string)
  : list number :=
  fold_left
    (fun acc line =>
       match parseScalaRatio line with
       | Some ratio => acc ++ [ratio]
       | None => acc
       end)
    lines acc.

(** [scaleRatios[scaleRatios.length - 1] !== 2] *)
Definition last_is_not_two (ratios : list number) : bool :=
  match JS.index ratios (Fin (Z.of_nat (List.length ratios) - 1)) with
  | Some r => negb (strict_eq r two)
  | None => true
  end.

(** The lines of the file that are neither empty nor comments. *)
Definition filtered_lines (fileContent : string) : list string :=
  filter (fun line => negb (is_empty line) && negb (startsWith line "!"))
         (map trim (split fileContent "010"%char)).

(** [reader.onload] of [handleSclFile], on the text of the file. *)
Definition reader_onload (fileContent : string) (s : state) : state :=
  let lines := filtered_lines fileContent in
  if (List.length lines <? 2)%nat then console_error_log InvalidScaleFileFormat s
  else
    let numNotes := parseInt (nth 1 lines EmptyString) in
    if isNaN numNotes || le_zero numNotes
    then console_error_log InvalidNumberOfNotes s
    else
      let ratios := push_ratios (scaleRatios s ++ [one]) (skipn 2 lines) in
      let ratios :=
        if last_is_not_two ratios then ratios ++ [two] else ratios in
      let s := set_scaleRatios ratios s in
      if (1 <? List.length ratios)%nat
      then
        let s := set_scaleLoaded true s in
        if sampleLoaded s then createPitchedSamples s else s
      else initializeDefaultScale (console_error_log NoValidRatios s).

(** A scale file chosen and read with no other event in between. *)
Definition load_scale (f : file) (s : state) : state :=
  let '(s', reading) := handleSclFile f s in
  if reading then reader_onload (file_text f) s' else s'.

(** [handleAudioFile]: whether [loadSound] was started; the globals change
    in its callback only. *)
Definition handleAudioFile (f : file) : bool :=
  startsWith (file_type f) "audio".

(** The callback of [loadSound], on the loaded sound. *)
Definition sound_loaded (loaded : nat) (s : state) : state :=
  createPitchedSamples (set_sampleLoaded true (set_sound loaded s)).

(** ** The note tracker *)

(** [stopNote] *)
Definition stopNote (midiNote : value) (s : state) : state :=
  if truthy (get (isPlaying s) midiNote)
  then
    let s := call Stop s in
    set_isPlaying (put (isPlaying s) midiNote false) s
  else s.

(** [playNote] *)
Definition playNote (midiNote : value) (s : state) : state :=
  if negb (sampleLoaded s) then s
  else
    let s :=
      if truthy (get (isPlaying s) midiNote) then stopNote midiNote s
      else s in
    let ratio := calculatePitchRatio s midiNote in
    let s := call (Rate ratio) s in
    let s := call Play s in
    set_isPlaying (put (isPlaying s) midiNote true) s.

(** ** Input handlers *)

Definition KEY_WIDTH : Z := 40.
Definition KEY_HEIGHT : Z := 150.

Definition WHITE_KEY_OFFSETS : list Z := [0; 2; 4; 5; 7; 9; 11].

(** [None] is the [null] entry of the table. *)
Definition BLACK_KEY_OFFSETS : list (option Z) :=
  [Some 1; Some 3; None; Some 6; Some 8; Some 10; None].

Definition KEYBOARD_MAP : list (string * Z) :=
  [("a", 60); ("w", 61); ("s", 62); ("e", 63); ("d", 64); ("f", 65);
   ("t", 66); ("g", 67); ("y", 68); ("h", 69); ("u", 70); ("j", 71);
   ("k", 72)]%string.

(** [KEYBOARD_MAP[k]]: the own properties of the table; the names p5 gives
    to keys are not properties of [Object.prototype]. *)
Definition keyboard_lookup (k : string) : value :=
  match find (fun e => String.eqb (fst e) k) KEYBOARD_MAP with
  | Some (_, n) => Num n
  | None => Undefined
  end.

(** [keyPressed], with the p5 variable [key]. *)
Definition keyPressed (key : string) (s : state) : state :=
  let note := keyboard_lookup (toLowerCase key) in
  if strict_neq note Null
  then playNote note (set_pressedKeys (set_add (pressedKeys s) note) s)
  else s.

(** [keyReleased] *)
Definition keyReleased (key : string) (s : state) : state :=
  let note := keyboard_lookup (toLowerCase key) in
  if strict_neq note Null
  then stopNote note (set_pressedKeys (set_delete (pressedKeys s) note) s)
  else s.

(** [handlePianoClick], with the p5 variables [mouseX] and [mouseY] on the
    pixel grid.  [KEY_WIDTH * 0.7] is 28 and
    [KEY_HEIGHT * BLACK_KEY_HEIGHT_RATIO] is 90. *)
Definition handlePianoClick (mouseX mouseY : Z) (s : state) : state :=
  if (mouseY <? 200) || (200 + KEY_HEIGHT <? mouseY) then s
  else
    let x := mouseX in
    let octave := x / (7 * KEY_WIDTH) in
    let remainder := Z.rem x (7 * KEY_WIDTH) in
    let blackKeyIndex := (remainder - 28) / KEY_WIDTH in
    let black :=
      if (mouseY <=? 200 + 90) && (28 <=? remainder)
         && (0 <=? blackKeyIndex) && (blackKeyIndex <? 7)
      then nth (Z.to_nat blackKeyIndex) BLACK_KEY_OFFSETS None
      else None in
    match black with
    | Some offset =>
        let note := Num (baseNote s + octave * 12 + offset) in
        playNote note (set_pressedKeys (set_add (pressedKeys s) note) s)
    | None =>
        let whiteKeyIndex := remainder / KEY_WIDTH in
        if (0 <=? whiteKeyIndex) && (whiteKeyIndex <? 7)
        then
          let note :=
            Num (baseNote s + octave * 12
                 + nth (Z.to_nat whiteKeyIndex) WHITE_KEY_OFFSETS 0) in
          playNote note (set_pressedKeys (set_add (pressedKeys s) note) s)
        else s
    end.

(** [mouseReleased] *)
Definition mouseReleased (s : state) : state :=
  let s := set_pressedKeys [] s in
  fold_left (fun st k => stopNote k st) (Object_keys (isPlaying s)) s.

(** [setup]: the canvas and the file inputs hold no state of the engine. *)
Definition setup (s : state) : state := initializeDefaultScale s.

(** ** Runs of the program *)

(** What the browser can deliver after [setup].  The completion of a file
    read and of a sound load are events of their own: they arrive after the
    handler that started them has returned, and any other event can come in
    between.  A run may complete a read or a load that no handler started,
    so the runs of the script are among the runs modelled here. *)
Inductive event : Type :=
| KeyPressed (key : string)
| KeyReleased (key : string)
| MousePressed (mouseX mouseY : Z)
| MouseReleased
| SclFileChosen (f : file)
| ReaderLoaded (fileContent : string)
| AudioFileChosen (f : file)
| SoundLoaded (loaded : nat).

Definition step (s : state) (e : event) : state :=
  match e with
  | KeyPressed k => keyPressed k s
  | KeyReleased k => keyReleased k s
  | MousePressed x y => handlePianoClick x y s
  | MouseReleased => mouseReleased s
  | SclFileChosen f => fst (handleSclFile f s)
  | ReaderLoaded text => reader_onload text s
  | AudioFileChosen f => if handleAudioFile f then s else s
  | SoundLoaded h => sound_loaded h s
  end.

Definition run (s : state) (es : list event) : state := fold_left step es s.

(** The states the program can be in. *)
Definition reachable (s : state) : Prop :=
  exists es, s = run (setup init) es.

(** ** The resolver and the octave law as the specification words them *)

(** [a^k] for an integer [k]. *)
Definition power (a : number) (k : Z) : number :=
  if k =? 0 then one
  else
    match a with
    | NaN => NaN
    | Inf s => if 0 <? k then Inf (s && Z.odd k) else Fin (mkReal 0 0)
    | Fin x =>
        if Qeq_bool (mant x) 0
        then (if k <? 0 then Inf false else Fin (mkReal 0 0))
        else Fin (normal (mant x ^ k) (expo x * inject_Z k))
    end.

(** [resolve] of the specification: the period is the table length minus
    one and the multiplier of a period is the last entry of the table. *)
Definition resolve_spec (ratios : list number) (baseIndex noteIndex : Z)
  : number :=
  let steps := noteIndex - baseIndex in
  let period := Z.of_nat (List.length ratios) - 1 in
  let octaves := steps / period in
  let scaleIndex := ((steps mod period) + period) mod period in
  mul (nth (Z.to_nat scaleIndex) ratios NaN)
      (power (nth (Z.to_nat period) ratios NaN) octaves).

(** ** The note tracker and the calls it sends *)

(** [isPlaying[i]] is truthy. *)
Definition engaged (s : state) (i : value) : bool :=
  truthy (get (isPlaying s) i).

(** What a [play] or a [stop] received by the sound object [h] makes of
    whether [h] is playing. *)
Definition received (h : nat) (playing : bool)
  (e : option nat * audio_call) : bool :=
  match e with
  | (Some h', Play) => if (h' =? h)%nat then true else playing
  | (Some h', Stop) => if (h' =? h)%nat then false else playing
  | _ => playing
  end.

(** The sound object [h] has received a [play] and no [stop] after it. *)
Definition playing_on (h : nat) (log : list (option nat * audio_call))
  : bool :=
  fold_left (received h) log false.

(** A call that sets the playback rate. *)
Definition is_rate (e : option nat * audio_call) : bool :=
  match snd e with
  | Rate _ => true
  | _ => false
  end.

(** The table is empty or its last entry is 2. *)
Definition octave_closed (s : state) : Prop :=
  scaleRatios s = [] \/ last_is_not_two (scaleRatios s) = false.

(** ** States and inputs used as examples *)

Definition newline : string := String "010"%char EmptyString.

(** A scale file that holds a comment and nothing else. *)
Definition comment_only_scl : file :=
  mkFile "broken.scl" "text/plain" "! a scale that was never written".


(** A scale file that declares one note and whose only data line does not
    parse. *)
Definition unparsable_scl : file :=
  mkFile "noise.scl" "text/plain"
    (String.concat newline
       ["! noise.scl"; "no ratio at all"; "1"; "abc"]%string).

(** A run in which two keys go down and the first one is released. *)
Definition two_keys_run : state :=
  run (setup init)
    [SoundLoaded 0; KeyPressed "a"; KeyPressed "s"; KeyReleased "a"].

(** A run in which a second sample is loaded while a key is held. *)
Definition reloaded_run : state :=
  run (setup init) [SoundLoaded 0; KeyPressed "a"; SoundLoaded 1].

(** ** Drawing the keyboard *)

(** The argument of [fill]: a gray level or [color(r, g, b)]. *)
Inductive paint : Type :=
| Gray (v : Z)
| Color (r g b : Z).

(** The calls [drawPiano] makes.  [NoteInfo] stands for a call of
    [drawNoteInfo], whose text is not modelled; it sets the fill to 0. *)
Inductive draw_call : Type :=
| Fill (c : paint)
| Stroke (gray : Z)
| Rect (x y w h : Z)
| NoteInfo (x y noteNumber : Z).

(** [drawPiano]: for each of two octaves the seven white keys, then the
    black keys.  [KEY_WIDTH * BLACK_KEY_WIDTH_RATIO] is 24. *)
Definition drawPiano (s : state) : list draw_call :=
  flat_map
    (fun octave =>
       flat_map
         (fun i : nat =>
            let x := Z.of_nat i * KEY_WIDTH + octave * 7 * KEY_WIDTH in
            let y := 200 in
            let noteNumber :=
              baseNote s + octave * 12 + nth i WHITE_KEY_OFFSETS 0 in
            [Fill (if set_has (pressedKeys s) (Num noteNumber)
                   then Color 200 200 255 else Gray 255);
             Stroke 0;
             Rect x y KEY_WIDTH KEY_HEIGHT]
            ++ (if scaleLoaded s then [NoteInfo x y noteNumber] else []))
         (seq 0 7)
       ++ flat_map
            (fun i : nat =>
               match nth i BLACK_KEY_OFFSETS None with
               | Some offset =>
                   let x :=
                     Z.of_nat i * KEY_WIDTH + 28 + octave * 7 * KEY_WIDTH in
                   let y := 200 in
                   let noteNumber := baseNote s + octave * 12 + offset in
                   [Fill (if set_has (pressedKeys s) (Num noteNumber)
                          then Color 150 150 200 else Gray 0);
                    Stroke 0;
                    Rect x y 24 90]
               | None => []
               end)
            (seq 0 7))
    [0; 1].

(** The fill in effect when the rectangle [(x, y, w, h)] is drawn by
    [calls], [None] when it is not drawn. *)
Fixpoint fill_of_rect (calls : list draw_call) (current : option paint)
  (x y w h : Z) : option paint :=
  match calls with
  | [] => None
  | Fill c :: rest => fill_of_rect rest (Some c) x y w h
  | Stroke _ :: rest => fill_of_rect rest current x y w h
  | NoteInfo _ _ _ :: rest => fill_of_rect rest (Some (Gray 0)) x y w h
  | Rect x' y' w' h' :: rest =>
      if (x' =? x) && (y' =? y) && (w' =? w) && (h' =? h) then current
      else fill_of_rect rest current x y w h
  end.

(** ** Further notions used by the properties *)

(** A ratio in the normal form the operations of the runtime produce. *)
Definition canonical (r : number) : Prop :=
  match r with
  | Fin x => exists m e, x = normal m e
  | _ => True
  end.

(** A scale file in the Scala convention: one declared note, a fifth. *)
Definition fifth_scl : file :=
  mkFile "fifth.scl" "text/plain"
    (String.concat newline
       ["! fifth.scl"; "a single fifth"; "1"; "3/2"]%string).

(** The run that loads [fifth_scl] after [setup]. *)
Definition fifth_run : state :=
  run (setup init)
    [SclFileChosen fifth_scl; ReaderLoaded (file_text fifth_scl)].

(** The events of the keyboard and the mouse. *)
Definition is_input (e : event) : bool :=
  match e with
  | KeyPressed _ | KeyReleased _ | MousePressed _ _ | MouseReleased => true
  | _ => false
  end.

Definition is_sound_loaded (e : event) : bool :=
  match e with
  | SoundLoaded _ => true
  | _ => false
  end.

(** [s'] has the sample, the scale, the pitched samples and the errors of
    [s]. *)
Definition same_setup (s s' : state) : Prop :=
  sound s' = sound s
  /\ soundPlayers s' = soundPlayers s
  /\ sampleLoaded s' = sampleLoaded s
  /\ scaleLoaded s' = scaleLoaded s
  /\ scaleRatios s' = scaleRatios s
  /\ baseNote s' = baseNote s
  /\ console_error s' = console_error s.

(** No sample has been loaded and no call has been made. *)
Definition quiet (s : state) : Prop :=
  sound s = None /\ sampleLoaded s = false
  /\ audio s = [] /\ isPlaying s = [].

(** Every note that is engaged was played with a sample, and a sample that
    is marked loaded is there. *)
Definition sample_present (s : state) : Prop :=
  (sampleLoaded s = true -> sound s <> None)
  /\ (forall i, engaged s i = true -> sampleLoaded s = true).

(** * Properties *)

(** ** Arithmetic of the resolver *)

Lemma Qfloor_div (a : Z) (p : positive) :
  Qfloor (Qred (inject_Z a / inject_Z (Zpos p))) = a / Zpos p.
Proof.
  transitivity (Qfloor (a # p)).
  - apply Qfloor_comp. rewrite Qred_correct. symmetry. apply Qmake_Qdiv.
  - reflexivity.
Qed.

Lemma rem_rem_mod (a b : Z) :
  0 < b -> Z.rem (Z.rem a b + b) b = a mod b.
Proof.
  intros Hb.
  assert (Hr : - b < Z.rem a b < b).
  { pose proof (Z.rem_bound_abs a b ltac:(lia)) as H.
    rewrite (Z.abs_eq b) in H by lia. lia. }
  rewrite Z.rem_mod_nonneg by lia.
  pose proof (Z.quot_rem' a b) as E.
  set (q := Z.quot a b) in *. set (r := Z.rem a b) in *.
  rewrite E.
  replace (r + b) with (r + 1 * b) by lia.
  replace (b * q + r) with (r + q * b) by lia.
  now rewrite !Z_mod_plus_full.
Qed.

Lemma div_positive (a : Z) (p : positive) :
  div (Fin (inject_Z a)) (Fin (inject_Z (Zpos p)))
  = Fin (Qred (inject_Z a / inject_Z (Zpos p))).
Proof. reflexivity. Qed.

Lemma mod_positive (a : Z) (p : positive) :
  mod_ (Fin a) (Fin (Zpos p)) = Fin (a mod Zpos p).
Proof.
  unfold mod_. cbn [rem add Z.eqb].
  now rewrite rem_rem_mod by lia.
Qed.

Lemma index_in_range {A : Type} (l : list A) (i : Z) (d : A) :
  0 <= i < Z.of_nat (List.length l) ->
  JS.index l (Fin i) = Some (nth (Z.to_nat i) l d).
Proof.
  intros Hi. unfold JS.index.
  destruct (Z.ltb_spec i 0) as [H | _]; [lia |].
  apply nth_error_nth'. lia.
Qed.

(** What [calculatePitchRatio] computes on a table that is not empty:
    quotient and remainder of the steps by the table length, and a power of
    two. *)
Lemma calculatePitchRatio_eq (s : state) (n : Z) :
  scaleRatios s <> [] ->
  calculatePitchRatio s (Num n)
  = mul (nth (Z.to_nat ((n - baseNote s)
                        mod Z.of_nat (List.length (scaleRatios s))))
             (scaleRatios s) NaN)
        (Math_pow2 (Fin (inject_Z ((n - baseNote s)
                                   / Z.of_nat (List.length (scaleRatios s)))))).
Proof.
  intros Hne. unfold calculatePitchRatio.
  destruct (Z.of_nat (List.length (scaleRatios s))) as [| p | p] eqn:Hlen.
  - destruct (scaleRatios s); [congruence | discriminate].
  - change (sub (ToNumber (Num n)) (Fin (baseNote s)))
      with (@Fin Z (n - baseNote s)).
    cbn [rational_of_integer].
    rewrite div_positive, mod_positive. cbn [Math_floor].
    rewrite Qfloor_div.
    rewrite (index_in_range (A := number) _ _ NaN).
    + reflexivity.
    + rewrite Hlen. apply Z.mod_pos_bound. lia.
  - lia.
Qed.

(** On the empty table every note resolves to [NaN]. *)
Lemma calculatePitchRatio_empty (s : state) (v : value) :
  scaleRatios s = [] -> calculatePitchRatio s v = NaN.
Proof.
  intros H. unfold calculatePitchRatio. rewrite H.
  destruct v as [| | n]; reflexivity.
Qed.

(** ** The pitch resolver *)

(** C1, evaluated on the default table (13 entries, last entry 2) at the
    note after the first twelve: the code divides the steps by the table
    length 13, so note 73 resolves to [1 * 2^1 = 2], the ratio of note 72,
    where the formula with period 12 gives [2^(1/12) * 2]; a click on the
    canvas at (310, 250) plays that note at that ratio. *)
Theorem resolver_divides_by_table_length :
  let s := setup init in
  let ratios := scaleRatios s in
  let period := Z.of_nat (List.length ratios) - 1 in
  (2 <= List.length ratios)%nat
  /\ nth (Z.to_nat period) ratios NaN = two
  /\ calculatePitchRatio s (Num 73) = two
  /\ calculatePitchRatio s (Num 72) = two
  /\ resolve_spec ratios (baseNote s) 73 = Fin (mkReal 2 (1 # 12))
  /\ calculatePitchRatio s (Num 73) <> resolve_spec ratios (baseNote s) 73
  /\ audio (run s [SoundLoaded 0; MousePressed 310 250])
     = audio (run s [SoundLoaded 0])
       ++ [(Some 0%nat, Rate two); (Some 0%nat, Play)].
Proof.
  cbv zeta.
  refine (conj _ (conj _ (conj _ (conj _ (conj _ (conj _ _))))));
    [vm_compute; lia | vm_compute; reflexivity .. |
     | vm_compute; reflexivity].
  vm_compute. discriminate.
Qed.

(** C2, evaluated on the default table (13 entries, period 12, last entry
    2) two periods above the base note: the code resolves note 84 to
    [2^(11/12) * 2], the octave law asks for [1 * 2^2 = 4]; a click on the
    canvas at (570, 300) plays that note at that ratio. *)
Theorem octave_law_fails_two_periods_up :
  let s := setup init in
  let ratios := scaleRatios s in
  let period := Z.of_nat (List.length ratios) - 1 in
  let period_ratio := nth (Z.to_nat period) ratios NaN in
  period = 12
  /\ period_ratio = two
  /\ calculatePitchRatio s (Num (baseNote s + 2 * period))
     = Fin (mkReal 2 (11 # 12))
  /\ mul (calculatePitchRatio s (Num (baseNote s))) (power period_ratio 2)
     = of_Z 4
  /\ calculatePitchRatio s (Num (baseNote s + 2 * period))
     <> mul (calculatePitchRatio s (Num (baseNote s))) (power period_ratio 2)
  /\ audio (run s [SoundLoaded 0; MousePressed 570 300])
     = audio (run s [SoundLoaded 0])
       ++ [(Some 0%nat, Rate (Fin (mkReal 2 (11 # 12))));
           (Some 0%nat, Play)].
Proof.
  cbv zeta.
  refine (conj _ (conj _ (conj _ (conj _ (conj _ _)))));
    [vm_compute; reflexivity .. | | vm_compute; reflexivity].
  vm_compute. discriminate.
Qed.

(** C8: on a table that begins with 1 the base note resolves to 1, whatever
    the base note is. *)
Theorem base_note_resolves_to_unison (s : state) (rest : list number) :
  scaleRatios s = one :: rest ->
  calculatePitchRatio s (Num (baseNote s)) = one.
Proof.
  intros Htable.
  rewrite calculatePitchRatio_eq by (rewrite Htable; discriminate).
  rewrite Z.sub_diag, Zmod_0_l, Zdiv_0_l, Htable.
  reflexivity.
Qed.

Lemma base_note_resolves_to_unison_witness :
  scaleRatios (setup init) = one :: tl (scaleRatios (setup init))
  /\ calculatePitchRatio (setup init) (Num (baseNote (setup init))) = one.
Proof.
  assert (H : scaleRatios (setup init) = one :: tl (scaleRatios (setup init)))
    by reflexivity.
  split; [exact H |].
  exact (base_note_resolves_to_unison (setup init) _ H).
Defined.

(** C9: [initializeDefaultScale] builds the 13 entries [2^(i/12)] for [i]
    from 0 to 11 followed by 2; the first entry is 1 and the last is 2. *)
Theorem default_scale_is_twelve_tone_equal (s : state) :
  scaleRatios (initializeDefaultScale s)
  = map (fun i => Math_pow2 (div (Fin (inject_Z (Z.of_nat i))) (Fin 12%Q)))
        (seq 0 12) ++ [two]
  /\ List.length (scaleRatios (initializeDefaultScale s)) = 13%nat
  /\ nth 0 (scaleRatios (initializeDefaultScale s)) NaN = one
  /\ nth 12 (scaleRatios (initializeDefaultScale s)) NaN = two.
Proof.
  refine (conj _ (conj _ (conj _ _))); vm_compute; reflexivity.
Qed.

(** ** Loading a scale file *)

Lemma state_eta (s : state) :
  s = mkState (sound s) (soundPlayers s) (isPlaying s) (sampleLoaded s)
        (scaleLoaded s) (pressedKeys s) (scaleRatios s) (baseNote s)
        (audio s) (console_error s).
Proof. destruct s; reflexivity. Qed.

Lemma pitch_samples_frame (noteNumbers : list Z) :
  forall st : state,
  exists players rates,
    forallb is_rate rates = true
    /\ fold_left pitch_sample noteNumbers st
       = mkState (sound st) players (isPlaying st) (sampleLoaded st)
           (scaleLoaded st) (pressedKeys st) (scaleRatios st) (baseNote st)
           (audio st ++ rates) (console_error st).
Proof.
  induction noteNumbers as [| n rest IH]; intros st.
  - exists (soundPlayers st), []. split; [reflexivity |].
    rewrite app_nil_r. apply state_eta.
  - destruct (IH (pitch_sample st n)) as (players & rates & Hrates & Heq).
    exists players,
      ((sound st, Rate (calculatePitchRatio st (Num n))) :: rates).
    split; [exact Hrates |].
    cbn [fold_left]. rewrite Heq. unfold pitch_sample.
    destruct (existsb _ _); cbn; now rewrite <- app_assoc.
Qed.

(** [createPitchedSamples] only replaces [soundPlayers] and only makes
    [rate] calls. *)
Lemma createPitchedSamples_frame (s : state) :
  exists players rates,
    forallb is_rate rates = true
    /\ createPitchedSamples s
       = mkState (sound s) players (isPlaying s) (sampleLoaded s)
           (scaleLoaded s) (pressedKeys s) (scaleRatios s) (baseNote s)
           (audio s ++ rates) (console_error s).
Proof.
  unfold createPitchedSamples.
  destruct (sound s) as [h |] eqn:Hsound.
  - destruct (negb (scaleLoaded s)).
    + exists (soundPlayers s), []. split; [reflexivity |].
      rewrite app_nil_r, <- Hsound. apply state_eta.
    + match goal with
      | |- context [fold_left pitch_sample ?l ?st] =>
          destruct (pitch_samples_frame l st)
            as (players & rates & Hrates & Heq)
      end.
      exists players, rates. split; [exact Hrates |].
      rewrite Heq. cbn. now rewrite Hsound.
  - exists (soundPlayers s), []. split; [reflexivity |].
    rewrite app_nil_r, <- Hsound. apply state_eta.
Qed.

Lemma push_ratios_none (lines : list string) (acc : list number) :
  Forall (fun line => parseScalaRatio line = None) lines ->
  push_ratios acc lines = acc.
Proof.
  unfold push_ratios. intros H. revert acc.
  induction H as [| line rest Hline _ IH]; intros acc; cbn [fold_left].
  - reflexivity.
  - rewrite Hline. apply IH.
Qed.

(** A file whose name does not end in [.scl] is refused before the table
    is touched. *)
Lemma wrong_extension_keeps_state (f : file) (s : state) :
  endsWith (file_name f) ".scl" = false -> load_scale f s = s.
Proof.
  intros Hname. unfold load_scale, handleSclFile. now rewrite Hname.
Qed.

(** C3, on the code: a [.scl] file that fails the line count or the note
    count check leaves the table empty, so that every note resolves to
    [NaN]; the message logged is not the one of the branch that restores the
    default table. *)
Theorem failed_load_empties_table (f : file) (s : state) :
  endsWith (file_name f) ".scl" = true ->
  (List.length (filtered_lines (file_text f)) <? 2)%nat
  || isNaN (parseInt (nth 1 (filtered_lines (file_text f)) EmptyString))
  || le_zero (parseInt (nth 1 (filtered_lines (file_text f)) EmptyString))
     = true ->
  let s' := load_scale f s in
  scaleRatios s' = []
  /\ scaleLoaded s' = scaleLoaded s
  /\ (forall v, calculatePitchRatio s' v = NaN)
  /\ exists e, console_error s' = console_error s ++ [e] /\ e <> NoValidRatios.
Proof.
  intros Hname Hfail. cbv zeta.
  unfold load_scale, handleSclFile. rewrite Hname. cbn [negb].
  unfold reader_onload.
  destruct (List.length (filtered_lines (file_text f)) <? 2)%nat.
  - refine (conj eq_refl (conj eq_refl (conj _ _))).
    + intros v. now apply calculatePitchRatio_empty.
    + exists InvalidScaleFileFormat. split; [reflexivity | discriminate].
  - cbn [orb] in Hfail. rewrite Hfail.
    refine (conj eq_refl (conj eq_refl (conj _ _))).
    + intros v. now apply calculatePitchRatio_empty.
    + exists InvalidNumberOfNotes. split; [reflexivity | discriminate].
Qed.

Lemma failed_load_empties_table_witness :
  endsWith (file_name comment_only_scl) ".scl" = true
  /\ scaleRatios (load_scale comment_only_scl (setup init)) = []
  /\ scaleLoaded (load_scale comment_only_scl (setup init)) = true
  /\ (forall v,
        calculatePitchRatio (load_scale comment_only_scl (setup init)) v
        = NaN)
  /\ exists e,
       console_error (load_scale comment_only_scl (setup init))
       = console_error (setup init) ++ [e]
       /\ e <> NoValidRatios.
Proof.
  assert (Hname : endsWith (file_name comment_only_scl) ".scl" = true)
    by (vm_compute; reflexivity).
  split; [exact Hname |].
  apply (failed_load_empties_table comment_only_scl (setup init) Hname).
  vm_compute; reflexivity.
Defined.

(** C4, on the code: a [.scl] file that passes the line count and note
    count checks and none of whose data lines parses is loaded as the table
    [1, 2]; nothing is logged by [console.error] and the table is not the
    default one. *)
Theorem unparsable_scale_is_accepted (f : file) (s : state) :
  endsWith (file_name f) ".scl" = true ->
  (List.length (filtered_lines (file_text f)) <? 2)%nat = false ->
  isNaN (parseInt (nth 1 (filtered_lines (file_text f)) EmptyString))
  || le_zero (parseInt (nth 1 (filtered_lines (file_text f)) EmptyString))
     = false ->
  Forall (fun line => parseScalaRatio line = None)
         (skipn 2 (filtered_lines (file_text f))) ->
  let s' := load_scale f s in
  scaleRatios s' = [one; two]
  /\ scaleLoaded s' = true
  /\ console_error s' = console_error s
  /\ scaleRatios s' <> scaleRatios (initializeDefaultScale s).
Proof.
  intros Hname Hlines Hcount Hdata. cbv zeta.
  unfold load_scale, handleSclFile. rewrite Hname. cbn [negb].
  unfold reader_onload. rewrite Hlines, Hcount.
  cbn [scaleRatios set_scaleRatios app].
  rewrite (push_ratios_none _ _ Hdata).
  change (last_is_not_two [one]) with true.
  cbn [app List.length Nat.ltb Nat.leb].
  destruct (sampleLoaded _).
  - match goal with
    | |- context [createPitchedSamples ?st] =>
        destruct (createPitchedSamples_frame st)
          as (players & rates & _ & Heq)
    end.
    rewrite Heq.
    refine (conj eq_refl (conj eq_refl (conj eq_refl _))).
    cbn. discriminate.
  - refine (conj eq_refl (conj eq_refl (conj eq_refl _))).
    cbn. discriminate.
Qed.

Lemma unparsable_scale_is_accepted_witness :
  Forall (fun line => parseScalaRatio line = None)
         (skipn 2 (filtered_lines (file_text unparsable_scl)))
  /\ scaleRatios (load_scale unparsable_scl (setup init)) = [one; two]
  /\ scaleLoaded (load_scale unparsable_scl (setup init)) = true
  /\ console_error (load_scale unparsable_scl (setup init))
     = console_error (setup init)
  /\ scaleRatios (load_scale unparsable_scl (setup init))
     <> scaleRatios (initializeDefaultScale (setup init)).
Proof.
  assert (Hdata : Forall (fun line => parseScalaRatio line = None)
                    (skipn 2 (filtered_lines (file_text unparsable_scl))))
    by (repeat constructor).
  split; [exact Hdata |].
  apply (unparsable_scale_is_accepted unparsable_scl (setup init));
    [vm_compute; reflexivity .. | exact Hdata].
Defined.

(** *** Every table the program holds ends with 2 *)

Lemma last_is_not_two_snoc (ratios : list number) :
  last_is_not_two (ratios ++ [two]) = false.
Proof.
  unfold last_is_not_two, JS.index. rewrite length_app. cbn [List.length].
  destruct (Z.ltb_spec (Z.of_nat (List.length ratios + 1) - 1) 0); [lia |].
  replace (Z.to_nat (Z.of_nat (List.length ratios + 1) - 1))
    with (List.length ratios) by lia.
  rewrite nth_error_app2, Nat.sub_diag by lia. reflexivity.
Qed.

Lemma scaleRatios_stopNote (i : value) (s : state) :
  scaleRatios (stopNote i s) = scaleRatios s.
Proof. unfold stopNote. destruct (truthy _); reflexivity. Qed.

Lemma scaleRatios_playNote (i : value) (s : state) :
  scaleRatios (playNote i s) = scaleRatios s.
Proof.
  unfold playNote. destruct (sampleLoaded s); [| reflexivity].
  destruct (truthy _); [| reflexivity].
  cbn. apply scaleRatios_stopNote.
Qed.

Lemma scaleRatios_createPitchedSamples (s : state) :
  scaleRatios (createPitchedSamples s) = scaleRatios s.
Proof.
  destruct (createPitchedSamples_frame s) as (players & rates & _ & Heq).
  now rewrite Heq.
Qed.

Lemma scaleRatios_stop_all (keys : list value) :
  forall s,
    scaleRatios (fold_left (fun st k => stopNote k st) keys s)
    = scaleRatios s.
Proof.
  induction keys as [| k rest IH]; intros s; cbn [fold_left].
  - reflexivity.
  - rewrite IH. apply scaleRatios_stopNote.
Qed.

Lemma octave_closed_reader_onload (fileContent : string) (s : state) :
  octave_closed s -> octave_closed (reader_onload fileContent s).
Proof.
  intros H. unfold reader_onload.
  destruct (_ <? _)%nat; [exact H |].
  destruct (_ || _); [exact H |].
  set (pushed := push_ratios _ _).
  assert (Hclosed : last_is_not_two
                      (if last_is_not_two pushed
                       then pushed ++ [two] else pushed) = false).
  { destruct (last_is_not_two pushed) eqn:E;
      [apply last_is_not_two_snoc | exact E]. }
  destruct (_ <? _)%nat.
  - right.
    match goal with
    | |- context [if ?b then createPitchedSamples ?st else _] =>
        destruct b; [rewrite scaleRatios_createPitchedSamples |]
    end; exact Hclosed.
  - right. reflexivity.
Qed.

Lemma octave_closed_step (s : state) (e : event) :
  octave_closed s -> octave_closed (step s e).
Proof.
  unfold octave_closed.
  intros H. destruct e as [k | k | x y | | f | text | f | h]; cbn [step].
  - unfold keyPressed. destruct (strict_neq _ _); [| exact H].
    now rewrite scaleRatios_playNote.
  - unfold keyReleased. destruct (strict_neq _ _); [| exact H].
    now rewrite scaleRatios_stopNote.
  - unfold handlePianoClick. destruct (_ || _); [exact H |].
    match goal with
    | |- context [match ?b with Some _ => _ | None => _ end] => destruct b
    end.
    + now rewrite scaleRatios_playNote.
    + destruct (_ && _); [| exact H]. now rewrite scaleRatios_playNote.
  - unfold mouseReleased. now rewrite scaleRatios_stop_all.
  - unfold handleSclFile. destruct (negb _); [exact H | now left].
  - now apply octave_closed_reader_onload.
  - now destruct (handleAudioFile f).
  - unfold sound_loaded. now rewrite scaleRatios_createPitchedSamples.
Qed.

(** In every reachable state the table is empty or ends with 2: on the
    tables the program builds, the fixed multiplier of
    [calculatePitchRatio] is the last entry. *)
Lemma reachable_octave_closed (s : state) :
  reachable s -> octave_closed s.
Proof.
  intros [es ->]. unfold run.
  assert (H0 : octave_closed (setup init)) by (right; reflexivity).
  revert H0. generalize (setup init).
  induction es as [| e rest IH]; intros s0 H0; cbn [fold_left].
  - exact H0.
  - apply IH. now apply octave_closed_step.
Qed.

(** ** The note tracker *)

Lemma value_eqb_eq (a b : value) : value_eqb a b = true <-> a = b.
Proof.
  destruct a, b; cbn; split; intros H;
    try reflexivity; try discriminate.
  - apply Z.eqb_eq in H. now subst.
  - injection H as ->. apply Z.eqb_refl.
Qed.

Lemma value_eqb_refl (a : value) : value_eqb a a = true.
Proof. now apply value_eqb_eq. Qed.

Lemma value_eqb_neq (a b : value) : value_eqb a b = false <-> a <> b.
Proof.
  split.
  - intros H E. apply value_eqb_eq in E. congruence.
  - intros H. destruct (value_eqb a b) eqn:E; [| reflexivity].
    apply value_eqb_eq in E. contradiction.
Qed.

Lemma value_eqb_sym (a b : value) : value_eqb a b = value_eqb b a.
Proof. destruct a, b; cbn; try reflexivity. apply Z.eqb_sym. Qed.

Lemma get_put {A : Type} (obj : list (value * A)) (k k' : value) (v : A) :
  get (put obj k v) k' = if value_eqb k k' then Some v else get obj k'.
Proof.
  induction obj as [| [k0 v0] rest IH]; cbn.
  - reflexivity.
  - destruct (value_eqb k0 k) eqn:E0; cbn.
    + apply value_eqb_eq in E0. subst k0.
      destruct (value_eqb k k'); reflexivity.
    + rewrite IH. destruct (value_eqb k0 k') eqn:E1; [| reflexivity].
      apply value_eqb_eq in E1. subst k0.
      now rewrite value_eqb_sym, E0.
Qed.

Lemma two_keys_run_reachable : reachable two_keys_run.
Proof. eexists. reflexivity. Qed.

Lemma reloaded_run_reachable : reachable reloaded_run.
Proof. eexists. reflexivity. Qed.

(** C5, evaluated on two runs.  After keys [a] and [s] went down and [a]
    was released, note 62 is engaged although the one sound object has
    received a stop after the play of 62: the stop that [stopNote] sends for
    note 60 names no note.  After a second sample was loaded while [a] was
    held, note 60 is engaged although the sound object now in [sound] never
    received a play, and once [a] is released note 60 is idle although the
    first sound object received a play and never a stop. *)
Theorem engaged_disagrees_with_calls_sent :
  reachable two_keys_run
  /\ sound two_keys_run = Some 0%nat
  /\ engaged two_keys_run (Num 62) = true
  /\ audio two_keys_run
     = audio (run (setup init) [SoundLoaded 0; KeyPressed "a"])
       ++ [(Some 0%nat, Rate (calculatePitchRatio (setup init) (Num 62)));
           (Some 0%nat, Play); (Some 0%nat, Stop)]
  /\ playing_on 0 (audio two_keys_run) = false
  /\ reachable reloaded_run
  /\ sound reloaded_run = Some 1%nat
  /\ engaged reloaded_run (Num 60) = true
  /\ playing_on 1 (audio reloaded_run) = false
  /\ engaged (step reloaded_run (KeyReleased "a")) (Num 60) = false
  /\ playing_on 0 (audio (step reloaded_run (KeyReleased "a"))) = true.
Proof.
  refine (conj two_keys_run_reachable _).
  refine (conj _ (conj _ (conj _ (conj _ (conj reloaded_run_reachable _)))));
    [vm_compute; reflexivity .. |].
  refine (conj _ (conj _ (conj _ (conj _ _)))); vm_compute; reflexivity.
Qed.

(** X21: [playNote] on an engaged note, with a sample loaded, sends exactly
    a stop, the rate and a play, in this order and all to the object that
    [sound] holds, and leaves the note engaged. *)
Theorem retrigger_sends_stop_rate_play (s : state) (i : value) :
  sampleLoaded s = true ->
  engaged s i = true ->
  audio (playNote i s)
  = audio s
    ++ [(sound s, Stop); (sound s, Rate (calculatePitchRatio s i));
        (sound s, Play)]
  /\ engaged (playNote i s) i = true.
Proof.
  intros Hsample Hi. split.
  - unfold playNote. unfold engaged in Hi. rewrite Hsample, Hi.
    unfold stopNote. rewrite Hi. cbn. now rewrite <- !app_assoc.
  - unfold playNote, engaged. rewrite Hsample.
    cbn [negb isPlaying call set_isPlaying].
    now rewrite get_put, value_eqb_refl.
Qed.

Lemma retrigger_sends_stop_rate_play_witness :
  sampleLoaded two_keys_run = true
  /\ engaged two_keys_run (Num 62) = true
  /\ audio (playNote (Num 62) two_keys_run)
     = audio two_keys_run
       ++ [(Some 0%nat, Stop);
           (Some 0%nat, Rate (calculatePitchRatio two_keys_run (Num 62)));
           (Some 0%nat, Play)]
  /\ engaged (playNote (Num 62) two_keys_run) (Num 62) = true.
Proof.
  assert (Hsample : sampleLoaded two_keys_run = true)
    by (vm_compute; reflexivity).
  assert (Hengaged : engaged two_keys_run (Num 62) = true)
    by (vm_compute; reflexivity).
  refine (conj Hsample (conj Hengaged _)).
  exact (retrigger_sends_stop_rate_play two_keys_run (Num 62)
           Hsample Hengaged).
Defined.

(** C6, evaluated after a second sample was loaded while key [a] was held:
    [playNote] on the engaged note 60 sends one stop, the rate and one play,
    and leaves the note engaged, but all three go to the second sound
    object; the first one, which received the earlier play of note 60, never
    receives a stop, so both have a play of note 60 under way, the only
    note ever played. *)
Theorem retrigger_after_reload_overlaps :
  reachable reloaded_run
  /\ sampleLoaded reloaded_run = true
  /\ engaged reloaded_run (Num 60) = true
  /\ audio (playNote (Num 60) reloaded_run)
     = audio reloaded_run
       ++ [(Some 1%nat, Stop); (Some 1%nat, Rate one); (Some 1%nat, Play)]
  /\ engaged (playNote (Num 60) reloaded_run) (Num 60) = true
  /\ map fst (isPlaying (playNote (Num 60) reloaded_run)) = [Num 60]
  /\ playing_on 0 (audio (playNote (Num 60) reloaded_run)) = true
  /\ playing_on 1 (audio (playNote (Num 60) reloaded_run)) = true.
Proof.
  refine (conj reloaded_run_reachable _).
  refine (conj _ (conj _ (conj _ (conj _ (conj _ (conj _ _))))));
    vm_compute; reflexivity.
Qed.

(** C7: a second [stopNote] in a row changes nothing; the first makes one
    stop call when the note was engaged and none when it was idle, in which
    case it changes nothing either. *)
Theorem stopNote_idempotent (s : state) (i : value) :
  stopNote i (stopNote i s) = stopNote i s
  /\ audio (stopNote i s)
     = audio s ++ (if engaged s i then [(sound s, Stop)] else [])
  /\ engaged (stopNote i s) i = false
  /\ (engaged s i = false -> stopNote i s = s).
Proof.
  unfold engaged.
  destruct (truthy (get (isPlaying s) i)) eqn:Hi.
  - assert (Hidle : truthy (get (isPlaying (stopNote i s)) i) = false).
    { unfold stopNote. rewrite Hi. cbn [isPlaying call set_isPlaying].
      now rewrite get_put, value_eqb_refl. }
    refine (conj _ (conj _ (conj Hidle _))).
    + unfold stopNote at 1. now rewrite Hidle.
    + unfold stopNote. now rewrite Hi.
    + discriminate.
  - assert (Hsame : stopNote i s = s) by (unfold stopNote; now rewrite Hi).
    rewrite !Hsame, app_nil_r. now repeat split.
Qed.

Lemma stopNote_idempotent_witness :
  engaged (setup init) (Num 60) = false
  /\ stopNote (Num 60) (stopNote (Num 60) two_keys_run)
     = stopNote (Num 60) two_keys_run
  /\ stopNote (Num 62) (stopNote (Num 62) two_keys_run)
     = stopNote (Num 62) two_keys_run
  /\ audio (stopNote (Num 62) two_keys_run)
     = audio two_keys_run ++ [(Some 0%nat, Stop)]
  /\ stopNote (Num 60) (setup init) = setup init.
Proof.
  assert (Hidle : engaged (setup init) (Num 60) = false) by reflexivity.
  refine (conj Hidle (conj _ (conj _ (conj _ _)))).
  - exact (proj1 (stopNote_idempotent two_keys_run (Num 60))).
  - exact (proj1 (stopNote_idempotent two_keys_run (Num 62))).
  - exact (proj1 (proj2 (stopNote_idempotent two_keys_run (Num 62)))).
  - exact (proj2 (proj2 (proj2 (stopNote_idempotent (setup init) (Num 60))))
             Hidle).
Defined.

(** ** Keys outside the keyboard table *)

Lemma playNote_pressedKeys (i : value) (s : state) :
  pressedKeys (playNote i s) = pressedKeys s.
Proof.
  unfold playNote. destruct (sampleLoaded s); [| reflexivity].
  destruct (truthy _); [| reflexivity].
  unfold stopNote. destruct (truthy _); reflexivity.
Qed.

Lemma set_has_add (l : list value) (k : value) :
  set_has (set_add l k) k = true.
Proof.
  unfold set_add. destruct (set_has l k) eqn:E; [exact E |].
  unfold set_has. rewrite existsb_app. cbn.
  now rewrite value_eqb_refl, orb_true_r.
Qed.

Lemma keyboard_lookup_unmapped (k : string) :
  (forall n, ~ In (k, n) KEYBOARD_MAP) -> keyboard_lookup k = Undefined.
Proof.
  intros H. unfold keyboard_lookup.
  destruct (find _ KEYBOARD_MAP) as [[k' n] |] eqn:E; [| reflexivity].
  apply find_some in E. destruct E as [Hin Heq].
  apply String.eqb_eq in Heq. cbn in Heq. subst k'.
  now apply H in Hin.
Qed.

(** C10: a key whose lower-case form is not in [KEYBOARD_MAP] looks up to
    [undefined], which passes the comparison with [null]: [keyPressed] adds
    [undefined] to the pressed keys and calls [playNote] with it, which
    engages it as soon as a sample is loaded, and [keyReleased] calls
    [stopNote] with it. *)
Theorem unmapped_key_is_played (key : string) (s : state) :
  (forall n, ~ In (toLowerCase key, n) KEYBOARD_MAP) ->
  keyboard_lookup (toLowerCase key) = Undefined
  /\ strict_neq Undefined Null = true
  /\ keyPressed key s
     = playNote Undefined
         (set_pressedKeys (set_add (pressedKeys s) Undefined) s)
  /\ set_has (pressedKeys (keyPressed key s)) Undefined = true
  /\ engaged (keyPressed key s) Undefined
     = (if sampleLoaded s then true else engaged s Undefined)
  /\ keyReleased key s
     = stopNote Undefined
         (set_pressedKeys (set_delete (pressedKeys s) Undefined) s).
Proof.
  intros Hkey. pose proof (keyboard_lookup_unmapped _ Hkey) as Hlookup.
  assert (Hpressed :
            keyPressed key s
            = playNote Undefined
                (set_pressedKeys (set_add (pressedKeys s) Undefined) s)).
  { unfold keyPressed. now rewrite Hlookup. }
  refine (conj Hlookup (conj eq_refl (conj Hpressed (conj _ (conj _ _))))).
  - rewrite Hpressed, playNote_pressedKeys. apply set_has_add.
  - rewrite Hpressed. unfold playNote, engaged.
    cbn [sampleLoaded set_pressedKeys].
    destruct (sampleLoaded s); cbn [negb]; [| reflexivity].
    cbn [isPlaying call set_isPlaying].
    now rewrite get_put, value_eqb_refl.
  - unfold keyReleased. now rewrite Hlookup.
Qed.

Lemma unmapped_key_is_played_witness :
  (forall n, ~ In (toLowerCase "Z", n) KEYBOARD_MAP)
  /\ keyPressed "Z" two_keys_run
     = playNote Undefined
         (set_pressedKeys (set_add (pressedKeys two_keys_run) Undefined)
            two_keys_run)
  /\ engaged (keyPressed "Z" two_keys_run) Undefined = true
  /\ audio (keyPressed "Z" two_keys_run)
     = audio two_keys_run ++ [(Some 0%nat, Rate NaN); (Some 0%nat, Play)].
Proof.
  assert (Hkey : forall n, ~ In (toLowerCase "Z", n) KEYBOARD_MAP).
  { intros n Hin. cbn in Hin.
    repeat (destruct Hin as [Hin | Hin]; [discriminate |]).
    exact Hin. }
  pose proof (unmapped_key_is_played "Z" two_keys_run Hkey) as H.
  refine (conj Hkey (conj (proj1 (proj2 (proj2 H))) (conj _ _))).
  - exact (proj1 (proj2 (proj2 (proj2 (proj2 H))))).
  - vm_compute. reflexivity.
Defined.

(** * Further properties of the code *)

(** ** The resolver *)



(** X2: on an empty table, and for a note that is [undefined], the resolver
    yields [NaN], whatever the rest of the state is. *)
Theorem resolver_yields_NaN (s : state) (v : value) :
  scaleRatios s = [] \/ v = Undefined ->
  calculatePitchRatio s v = NaN.
Proof.
  intros [Hempty | ->].
  - now apply calculatePitchRatio_empty.
  - reflexivity.
Qed.

Lemma resolver_yields_NaN_witness :
  (scaleRatios (setup init) = [] \/ Undefined = Undefined)
  /\ calculatePitchRatio (setup init) Undefined = NaN.
Proof.
  assert (H : scaleRatios (setup init) = [] \/ Undefined = Undefined)
    by (right; reflexivity).
  split; [exact H |]. exact (resolver_yields_NaN (setup init) Undefined H).
Defined.

Lemma Qfloor_unit_interval (y : Q) : (0 <= y)%Q -> (y < 1)%Q -> Qfloor y = 0.
Proof.
  intros H0 H1.
  pose proof (Qfloor_le y) as Hle. pose proof (Qlt_floor y) as Hlt.
  assert (Hup : (Qfloor y < 1)%Z).
  { rewrite Zlt_Qlt. eapply Qle_lt_trans; eassumption. }
  assert (Hlow : (0 < Qfloor y + 1)%Z).
  { rewrite Zlt_Qlt. eapply Qle_lt_trans; eassumption. }
  lia.
Qed.

(** Multiplying a ratio in normal form by [2^0] gives it back. *)
Lemma mul_unit_canonical (r : number) :
  canonical r -> mul r (Math_pow2 (Fin (inject_Z 0))) = r.
Proof.
  destruct r as [| sgn | x]; cbn [canonical]; intros H.
  - reflexivity.
  - cbn. now rewrite xorb_false_r.
  - destruct H as (m & e & ->).
    change (Math_pow2 (Fin (inject_Z 0))) with (@Fin real (mkReal 1 0)).
    unfold normal at 1 2.
    destruct (Qeq_bool m 0) eqn:Hm; [reflexivity |].
    apply Qeq_bool_neq in Hm.
    set (k := Qfloor e).
    assert (Hmant : ~ (m * 2 ^ k == 0)%Q).
    { intros Hz. apply Qmult_integral in Hz. destruct Hz as [Hz | Hz].
      - now apply Hm.
      - pose proof (Qpower_0_lt 2 k ltac:(reflexivity)) as Hpos.
        rewrite Hz in Hpos. now apply Qlt_irrefl in Hpos. }
    cbn [mul mant expo]. unfold normal.
    destruct (Qeq_bool (Qred (m * 2 ^ k) * 1) 0) eqn:Hz.
    { apply Qeq_bool_iff in Hz.
      rewrite Qred_correct, Qmult_1_r in Hz. contradiction. }
    assert (Hfloor : Qfloor (Qred (e - inject_Z k) + 0) = 0).
    { pose proof (Qfloor_le e) as Hle. pose proof (Qlt_floor e) as Hlt.
      fold k in Hle, Hlt. rewrite inject_Z_plus in Hlt.
      change (inject_Z 1) with 1%Q in Hlt.
      apply Qfloor_unit_interval; rewrite Qred_correct; lra. }
    rewrite Hfloor. f_equal. f_equal.
    + rewrite <- (Qred_involutive (m * 2 ^ k)) at 2.
      apply Qred_complete. cbn [Qpower]. ring.
    + rewrite <- (Qred_involutive (e - inject_Z k)) at 2.
      apply Qred_complete. change (inject_Z 0) with 0%Q. ring.
Qed.

Lemma canonical_of_rational (a : rational) : canonical (of_rational a).
Proof.
  destruct a as [| sgn | q]; cbn; trivial. now exists q, 0%Q.
Qed.

Lemma canonical_Math_pow2 (x : rational) : canonical (Math_pow2 x).
Proof.
  destruct x as [| [|] | q]; cbn; trivial.
  - now exists 0%Q, 0%Q.
  - now exists 1%Q, q.
Qed.

Lemma canonical_parseScalaRatio (line : string) (r : number) :
  parseScalaRatio line = Some r -> canonical r.
Proof.
  unfold parseScalaRatio.
  destruct (is_empty _); [discriminate |].
  destruct (includes _ _).
  - destruct (_ && _); [| discriminate].
    intros H. injection H as <-. apply canonical_of_rational.
  - destruct (negb _); [| discriminate].
    intros H. injection H as <-. apply canonical_Math_pow2.
Qed.

Lemma canonical_push_ratios (lines : list string) :
  forall acc, Forall canonical acc -> Forall canonical (push_ratios acc lines).
Proof.
  unfold push_ratios.
  induction lines as [| line rest IH]; intros acc Hacc; cbn [fold_left].
  - exact Hacc.
  - apply IH. destruct (parseScalaRatio line) as [r |] eqn:E; [| exact Hacc].
    apply Forall_app. split; [exact Hacc |].
    constructor; [| constructor]. now apply (canonical_parseScalaRatio line).
Qed.

Lemma canonical_default_scale (s : state) :
  Forall canonical (scaleRatios (initializeDefaultScale s)).
Proof.
  change (scaleRatios (initializeDefaultScale s))
    with (fold_left
            (fun acc i =>
               acc ++ [Math_pow2 (div (Fin (inject_Z i)) (Fin 12%Q))])
            (map Z.of_nat (seq 1 11)) [one] ++ [two]).
  cbn [seq map fold_left app].
  repeat (constructor;
          [first [apply canonical_Math_pow2 | now exists 1%Q, 0%Q
                 | now exists 2%Q, 0%Q] |]).
  constructor.
Qed.

Lemma canonical_reader_onload (fileContent : string) (s : state) :
  Forall canonical (scaleRatios s) ->
  Forall canonical (scaleRatios (reader_onload fileContent s)).
Proof.
  intros H. unfold reader_onload.
  destruct (_ <? _)%nat; [exact H |].
  destruct (_ || _); [exact H |].
  set (pushed := push_ratios _ _).
  assert (Hpushed : Forall canonical pushed).
  { apply canonical_push_ratios, Forall_app. split; [exact H |].
    constructor; [now exists 1%Q, 0%Q | constructor]. }
  assert (Hfinal : Forall canonical
                     (if last_is_not_two pushed
                      then pushed ++ [two] else pushed)).
  { destruct (last_is_not_two pushed); [| exact Hpushed].
    apply Forall_app. split; [exact Hpushed |].
    constructor; [now exists 2%Q, 0%Q | constructor]. }
  destruct (_ <? _)%nat.
  - match goal with
    | |- context [if ?b then createPitchedSamples ?st else _] =>
        destruct b; [rewrite scaleRatios_createPitchedSamples |]
    end; exact Hfinal.
  - apply canonical_default_scale.
Qed.

Lemma canonical_step (s : state) (e : event) :
  Forall canonical (scaleRatios s) ->
  Forall canonical (scaleRatios (step s e)).
Proof.
  intros H. destruct e as [k | k | x y | | f | text | f | h]; cbn [step].
  - unfold keyPressed. destruct (strict_neq _ _); [| exact H].
    now rewrite scaleRatios_playNote.
  - unfold keyReleased. destruct (strict_neq _ _); [| exact H].
    now rewrite scaleRatios_stopNote.
  - unfold handlePianoClick. destruct (_ || _); [exact H |].
    match goal with
    | |- context [match ?b with Some _ => _ | None => _ end] => destruct b
    end.
    + now rewrite scaleRatios_playNote.
    + destruct (_ && _); [| exact H]. now rewrite scaleRatios_playNote.
  - unfold mouseReleased. now rewrite scaleRatios_stop_all.
  - unfold handleSclFile. destruct (negb _); [exact H | constructor].
  - now apply canonical_reader_onload.
  - now destruct (handleAudioFile f).
  - unfold sound_loaded. now rewrite scaleRatios_createPitchedSamples.
Qed.

Lemma canonical_reachable (s : state) :
  reachable s -> Forall canonical (scaleRatios s).
Proof.
  intros [es ->]. unfold run.
  pose proof (canonical_default_scale init) as H0.
  change (initializeDefaultScale init) with (setup init) in H0.
  revert H0. generalize (setup init).
  induction es as [| e rest IH]; intros s0 H0; cbn [fold_left].
  - exact H0.
  - apply IH. now apply canonical_step.
Qed.

Lemma fifth_run_reachable : reachable fifth_run.
Proof. eexists. reflexivity. Qed.

(** X3: in every reachable state the notes from the base note up to the
    table length sound at the entries of the table, in order: note
    [baseNote + k] resolves to [scaleRatios[k]]. *)
Theorem first_period_plays_table (s : state) (k : Z) :
  reachable s ->
  0 <= k < Z.of_nat (List.length (scaleRatios s)) ->
  calculatePitchRatio s (Num (baseNote s + k))
  = nth (Z.to_nat k) (scaleRatios s) NaN.
Proof.
  intros Hs Hk.
  rewrite calculatePitchRatio_eq
    by (destruct (scaleRatios s); [cbn in Hk; lia | discriminate]).
  replace (baseNote s + k - baseNote s) with k by lia.
  rewrite Z.mod_small, Z.div_small by lia.
  apply mul_unit_canonical.
  pose proof (canonical_reachable s Hs) as Hall.
  rewrite Forall_forall in Hall. apply Hall, nth_In. lia.
Qed.

Lemma first_period_plays_table_witness :
  reachable fifth_run
  /\ 0 <= 1 < Z.of_nat (List.length (scaleRatios fifth_run))
  /\ calculatePitchRatio fifth_run (Num (baseNote fifth_run + 1))
     = nth (Z.to_nat 1) (scaleRatios fifth_run) NaN.
Proof.
  assert (Hk : 0 <= 1 < Z.of_nat (List.length (scaleRatios fifth_run)))
    by (vm_compute; split; [discriminate | reflexivity]).
  refine (conj fifth_run_reachable (conj Hk _)).
  exact (first_period_plays_table fifth_run 1 fifth_run_reachable Hk).
Defined.

(** ** Loading a scale file, further *)

Lemma push_ratios_app (lines : list string) :
  forall acc, push_ratios acc lines = acc ++ push_ratios [] lines.
Proof.
  unfold push_ratios.
  induction lines as [| line rest IH]; intros acc; cbn [fold_left].
  - now rewrite app_nil_r.
  - destruct (parseScalaRatio line) as [r |].
    + rewrite (IH (acc ++ [r])), (IH ([] ++ [r])).
      now rewrite <- app_assoc.
    + apply IH.
Qed.

(** After the unison has been pushed, the table that [reader.onload] ends
    with always has more than one entry. *)
Lemma pushed_table_length (prev parsed : list number) :
  (1 <? List.length
          (if last_is_not_two (prev ++ one :: parsed)
           then (prev ++ one :: parsed) ++ [two]
           else prev ++ one :: parsed))%nat = true.
Proof.
  apply Nat.ltb_lt.
  destruct (last_is_not_two (prev ++ one :: parsed)) eqn:E.
  - rewrite !length_app. cbn [List.length]. lia.
  - destruct prev as [| p prev'].
    + destruct parsed as [| r parsed']; [discriminate E |].
      cbn [app List.length]. lia.
    + rewrite length_app. cbn [List.length]. lia.
Qed.

Lemma scaleRatios_maybe_pitched (b : bool) (s : state) :
  scaleRatios (if b then createPitchedSamples s else s) = scaleRatios s.
Proof. destruct b; [apply scaleRatios_createPitchedSamples | reflexivity]. Qed.

(** The table and the errors after [reader.onload], by the outcome of its
    two checks. *)
Lemma reader_onload_outcome (fileContent : string) (s : state) :
  let lines := filtered_lines fileContent in
  let pushed := scaleRatios s ++ one :: push_ratios [] (skipn 2 lines) in
  (scaleRatios (reader_onload fileContent s) = scaleRatios s
   /\ (console_error (reader_onload fileContent s)
       = console_error s ++ [InvalidScaleFileFormat]
       \/ console_error (reader_onload fileContent s)
          = console_error s ++ [InvalidNumberOfNotes])
   /\ ((List.length lines <? 2)%nat
       || isNaN (parseInt (nth 1 lines EmptyString))
       || le_zero (parseInt (nth 1 lines EmptyString)) = true))
  \/ (scaleRatios (reader_onload fileContent s)
      = (if last_is_not_two pushed then pushed ++ [two] else pushed)
      /\ console_error (reader_onload fileContent s) = console_error s
      /\ scaleLoaded (reader_onload fileContent s) = true
      /\ ((List.length lines <? 2)%nat
          || isNaN (parseInt (nth 1 lines EmptyString))
          || le_zero (parseInt (nth 1 lines EmptyString)) = false)).
Proof.
  cbv zeta. unfold reader_onload.
  destruct (_ <? _)%nat; [left; auto |].
  destruct (_ || _) eqn:Hcount; [left; auto |].
  right. rewrite push_ratios_app, <- app_assoc. cbn [app].
  rewrite pushed_table_length.
  match goal with
  | |- context [if ?b then createPitchedSamples ?st else _] =>
      destruct b;
      [destruct (createPitchedSamples_frame st)
         as (players & rates & _ & ->) |]
  end; auto.
Qed.

(** X4: a [.scl] file that passes the line count and note count checks
    leaves a table that starts with the unison, has at least two entries
    and ends with 2; the scale is marked loaded and no error is logged. *)
Theorem valid_scale_table_shape (f : file) (s : state) :
  endsWith (file_name f) ".scl" = true ->
  (List.length (filtered_lines (file_text f)) <? 2)%nat
  || isNaN (parseInt (nth 1 (filtered_lines (file_text f)) EmptyString))
  || le_zero (parseInt (nth 1 (filtered_lines (file_text f)) EmptyString))
     = false ->
  exists rest,
    scaleRatios (load_scale f s) = one :: rest
    /\ rest <> []
    /\ last_is_not_two (scaleRatios (load_scale f s)) = false
    /\ scaleLoaded (load_scale f s) = true
    /\ console_error (load_scale f s) = console_error s.
Proof.
  intros Hname Hvalid.
  unfold load_scale, handleSclFile. rewrite Hname. cbn [negb].
  destruct (reader_onload_outcome (file_text f) (set_scaleRatios [] s))
    as [(_ & _ & Hfail) | (Htable & Herr & Hloaded & _)];
    [congruence |].
  cbn [scaleRatios set_scaleRatios app] in Htable.
  set (parsed := push_ratios [] _) in Htable.
  rewrite Htable.
  destruct (last_is_not_two (one :: parsed)) eqn:E.
  - exists (parsed ++ [two]).
    refine (conj eq_refl (conj _ (conj _ (conj Hloaded Herr)))).
    + now destruct parsed.
    + apply (last_is_not_two_snoc (one :: parsed)).
  - exists parsed.
    refine (conj eq_refl (conj _ (conj E (conj Hloaded Herr)))).
    intros ->. discriminate E.
Qed.

Lemma valid_scale_table_shape_witness :
  endsWith (file_name fifth_scl) ".scl" = true
  /\ exists rest,
       scaleRatios (load_scale fifth_scl (setup init)) = one :: rest
       /\ rest <> []
       /\ last_is_not_two (scaleRatios (load_scale fifth_scl (setup init)))
          = false
       /\ scaleLoaded (load_scale fifth_scl (setup init)) = true
       /\ console_error (load_scale fifth_scl (setup init))
          = console_error (setup init).
Proof.
  assert (Hname : endsWith (file_name fifth_scl) ".scl" = true)
    by (vm_compute; reflexivity).
  split; [exact Hname |].
  apply (valid_scale_table_shape fifth_scl (setup init) Hname).
  vm_compute; reflexivity.
Defined.

(** X5: the table after a [.scl] file has been chosen and read does not
    depend on the state it was loaded into: a load replaces the table
    wholesale. *)
Theorem load_replaces_table (f : file) (s1 s2 : state) :
  endsWith (file_name f) ".scl" = true ->
  scaleRatios (load_scale f s1) = scaleRatios (load_scale f s2).
Proof.
  intros Hname.
  unfold load_scale, handleSclFile. rewrite Hname. cbn [negb].
  destruct (reader_onload_outcome (file_text f) (set_scaleRatios [] s1))
    as [(H1 & _ & Hc1) | (H1 & _ & _ & Hc1)];
    destruct (reader_onload_outcome (file_text f) (set_scaleRatios [] s2))
      as [(H2 & _ & Hc2) | (H2 & _ & _ & Hc2)];
    try congruence; now rewrite H1, H2.
Qed.

Lemma load_replaces_table_witness :
  endsWith (file_name fifth_scl) ".scl" = true
  /\ scaleRatios (load_scale fifth_scl (setup init))
     = scaleRatios (load_scale fifth_scl two_keys_run).
Proof.
  assert (Hname : endsWith (file_name fifth_scl) ".scl" = true)
    by (vm_compute; reflexivity).
  split; [exact Hname |].
  exact (load_replaces_table fifth_scl (setup init) two_keys_run Hname).
Defined.

(** X6: [reader.onload] never removes an entry and never takes its
    fallback: the table it leaves starts with the table it found, and the
    only errors it can log are the two of its checks.  A read that
    completes on a table that was not emptied appends to it. *)
Theorem reader_onload_appends (fileContent : string) (s : state) :
  exists suffix,
    scaleRatios (reader_onload fileContent s) = scaleRatios s ++ suffix
    /\ (console_error (reader_onload fileContent s) = console_error s
        \/ console_error (reader_onload fileContent s)
           = console_error s ++ [InvalidScaleFileFormat]
        \/ console_error (reader_onload fileContent s)
           = console_error s ++ [InvalidNumberOfNotes]).
Proof.
  destruct (reader_onload_outcome fileContent s)
    as [(Htable & [Herr | Herr] & _) | (Htable & Herr & _ & _)].
  - exists []. rewrite app_nil_r. auto.
  - exists []. rewrite app_nil_r. auto.
  - cbv zeta in Htable.
    set (parsed := push_ratios [] _) in Htable.
    destruct (last_is_not_two (scaleRatios s ++ one :: parsed)).
    + exists ((one :: parsed) ++ [two]). rewrite app_assoc. auto.
    + exists (one :: parsed). auto.
Qed.

Lemma split_head (c : ascii) (line rest : string) :
  includes line c = false ->
  hd EmptyString (split (line ++ String c rest) c) = line
  /\ hd EmptyString (split line c) = line.
Proof.
  induction line as [| d line' IH]; cbn; intros H.
  - now rewrite Ascii.eqb_refl.
  - apply orb_false_elim in H. destruct H as [Hd Hrest].
    rewrite Hd. destruct (IH Hrest) as [IH1 IH2]. split.
    + destruct (split (line' ++ String c rest) c); cbn in *; congruence.
    + destruct (split line' c); cbn in *; congruence.
Qed.

(** X7: what follows the first [!] of a data line is ignored by
    [parseScalaRatio]. *)
Theorem parseScalaRatio_ignores_comment (line comment : string) :
  includes line "!" = false ->
  parseScalaRatio (line ++ String "!" comment) = parseScalaRatio line.
Proof.
  intros H. destruct (split_head "!" line comment H) as [H1 H2].
  unfold parseScalaRatio. now rewrite H1, H2.
Qed.

Lemma parseScalaRatio_ignores_comment_witness :
  includes "701.955 " "!" = false
  /\ parseScalaRatio ("701.955 " ++ String "!" " a just fifth in cents")
     = parseScalaRatio "701.955 ".
Proof.
  assert (H : includes "701.955 " "!" = false) by reflexivity.
  split; [exact H |].
  exact (parseScalaRatio_ignores_comment _ _ H).
Defined.

(** ** The note tracker, further *)

Lemma engaged_stopNote (k i : value) (s : state) :
  engaged (stopNote k s) i = engaged s i && negb (value_eqb k i).
Proof.
  unfold stopNote, engaged.
  destruct (truthy (get (isPlaying s) k)) eqn:Hk.
  - cbn [isPlaying call set_isPlaying]. rewrite get_put.
    destruct (value_eqb k i); cbn [truthy negb].
    + now rewrite andb_false_r.
    + now rewrite andb_true_r.
  - destruct (value_eqb k i) eqn:E; cbn [negb].
    + apply value_eqb_eq in E. subst i. now rewrite Hk.
    + now rewrite andb_true_r.
Qed.

Lemma engaged_playNote (k i : value) (s : state) :
  engaged (playNote k s) i
  = if sampleLoaded s then value_eqb k i || engaged s i else engaged s i.
Proof.
  unfold playNote. destruct (sampleLoaded s); cbn [negb]; [| reflexivity].
  set (s1 := if truthy (get (isPlaying s) k) then stopNote k s else s).
  assert (H1 : engaged s1 i = engaged s i && negb (value_eqb k i)).
  { subst s1. destruct (truthy (get (isPlaying s) k)) eqn:Hk.
    - apply engaged_stopNote.
    - destruct (value_eqb k i) eqn:E; cbn [negb].
      + apply value_eqb_eq in E. subst i. unfold engaged. now rewrite Hk.
      + now rewrite andb_true_r. }
  unfold engaged in *. cbn [isPlaying call set_isPlaying].
  rewrite get_put. destruct (value_eqb k i); cbn [orb truthy].
  - reflexivity.
  - rewrite H1. cbn [negb]. now rewrite andb_true_r.
Qed.

(** X8: [playNote] and [stopNote] on one note leave the engagement of
    every other note as it was. *)
Theorem other_notes_untouched (i j : value) (s : state) :
  i <> j ->
  engaged (playNote i s) j = engaged s j
  /\ engaged (stopNote i s) j = engaged s j.
Proof.
  intros Hne. apply value_eqb_neq in Hne.
  rewrite engaged_playNote, engaged_stopNote, Hne. cbn [orb negb].
  rewrite andb_true_r. now destruct (sampleLoaded s).
Qed.

Lemma other_notes_untouched_witness :
  Num 62 <> Num 64
  /\ engaged (playNote (Num 62) two_keys_run) (Num 64)
     = engaged two_keys_run (Num 64)
  /\ engaged (stopNote (Num 62) two_keys_run) (Num 64)
     = engaged two_keys_run (Num 64).
Proof.
  assert (H : Num 62 <> Num 64) by discriminate.
  split; [exact H |].
  exact (other_notes_untouched (Num 62) (Num 64) two_keys_run H).
Defined.

Lemma In_insert_sorted (k x : Z) (l : list Z) :
  In x (insert_sorted k l) <-> x = k \/ In x l.
Proof.
  induction l as [| y rest IH]; cbn.
  - intuition.
  - destruct (k <=? y); cbn; [intuition |].
    rewrite IH. intuition.
Qed.

Lemma In_sorted (x : Z) (l : list Z) :
  In x (fold_right insert_sorted [] l) <-> In x l.
Proof.
  induction l as [| y rest IH]; cbn; [reflexivity |].
  rewrite In_insert_sorted, IH. intuition.
Qed.

(** [Object.keys] lists every property of the object. *)
Lemma Object_keys_complete {A : Type} (obj : list (value * A)) (k : value) :
  In k (map fst obj) -> In k (Object_keys obj).
Proof.
  intros Hin. unfold Object_keys. apply in_or_app.
  destruct (is_array_index k) eqn:E.
  - left. unfold sort_indices.
    destruct k as [| | n]; try discriminate.
    apply in_map, In_sorted, in_flat_map.
    exists (Num n). split; [| now left].
    apply filter_In. now split.
  - right. apply filter_In. split; [exact Hin | now rewrite E].
Qed.

Lemma get_Some_In {A : Type} (obj : list (value * A)) (k : value) (v : A) :
  get obj k = Some v -> In k (map fst obj).
Proof.
  induction obj as [| [k0 v0] rest IH]; cbn; [discriminate |].
  destruct (value_eqb k0 k) eqn:E.
  - intros _. left. now apply value_eqb_eq.
  - intros H. right. now apply IH.
Qed.

Lemma engaged_stop_all (keys : list value) (i : value) :
  forall s,
    engaged (fold_left (fun st k => stopNote k st) keys s) i
    = engaged s i && negb (existsb (fun k => value_eqb k i) keys).
Proof.
  induction keys as [| k rest IH]; intros s; cbn [fold_left existsb].
  - cbn. now rewrite andb_true_r.
  - rewrite IH, engaged_stopNote, negb_orb. now rewrite andb_assoc.
Qed.

Lemma pressedKeys_stopNote (i : value) (s : state) :
  pressedKeys (stopNote i s) = pressedKeys s.
Proof. unfold stopNote. destruct (truthy _); reflexivity. Qed.

Lemma pressedKeys_stop_all (keys : list value) :
  forall s,
    pressedKeys (fold_left (fun st k => stopNote k st) keys s)
    = pressedKeys s.
Proof.
  induction keys as [| k rest IH]; intros s; cbn [fold_left].
  - reflexivity.
  - rewrite IH. apply pressedKeys_stopNote.
Qed.

Lemma audio_stop_all (keys : list value) :
  forall s,
  exists notes,
    audio (fold_left (fun st k => stopNote k st) keys s)
    = audio s ++ map (fun _ => (sound s, Stop)) notes
    /\ Forall (fun i => engaged s i = true) notes.
Proof.
  induction keys as [| k rest IH]; intros s; cbn [fold_left].
  - exists []. cbn. now rewrite app_nil_r.
  - destruct (IH (stopNote k s)) as (notes & Heq & Hall).
    assert (Hall' : Forall (fun i => engaged s i = true) notes).
    { eapply Forall_impl; [| exact Hall]. cbn. intros i He.
      rewrite engaged_stopNote in He. now apply andb_prop in He. }
    unfold stopNote in Heq |- *. unfold engaged in *.
    destruct (truthy (get (isPlaying s) k)) eqn:Hk.
    + exists (k :: notes). split.
      * rewrite Heq. cbn. now rewrite <- app_assoc.
      * constructor; [exact Hk | exact Hall'].
    + exists notes. now split.
Qed.

(** X9: [mouseReleased] releases everything: afterwards no note is engaged
    and no key is pressed, and the only calls it makes are stops on the
    sound object, one for each of a list of notes that were engaged. *)
Theorem mouseReleased_releases_all (s : state) :
  (forall i, engaged (mouseReleased s) i = false)
  /\ pressedKeys (mouseReleased s) = []
  /\ exists notes,
       audio (mouseReleased s)
       = audio s ++ map (fun _ => (sound s, Stop)) notes
       /\ Forall (fun i => engaged s i = true) notes.
Proof.
  unfold mouseReleased. refine (conj _ (conj _ _)).
  - intros i. rewrite engaged_stop_all.
    change (engaged (set_pressedKeys [] s) i) with (engaged s i).
    destruct (engaged s i) eqn:Hi; [| reflexivity].
    cbn [andb]. apply negb_false_iff, existsb_exists.
    exists i. split; [| apply value_eqb_refl].
    apply Object_keys_complete.
    unfold engaged in Hi. cbn [isPlaying set_pressedKeys].
    destruct (get (isPlaying s) i) as [b |] eqn:Hget; [| discriminate].
    now apply (get_Some_In _ _ b).
  - now rewrite pressedKeys_stop_all.
  - apply (audio_stop_all _ (set_pressedKeys [] s)).
Qed.

(** ** The keyboard, further *)

Lemma lower_char_idempotent (c : ascii) :
  lower_char (lower_char c) = lower_char c.
Proof.
  destruct c as [[|] [|] [|] [|] [|] [|] [|] [|]]; vm_compute; reflexivity.
Qed.

Lemma toLowerCase_idempotent (k : string) :
  toLowerCase (toLowerCase k) = toLowerCase k.
Proof.
  induction k as [| c rest IH]; cbn; [reflexivity |].
  now rewrite lower_char_idempotent, IH.
Qed.

(** X10: the key handlers do not tell upper case from lower case. *)
Theorem keys_are_case_insensitive (key : string) (s : state) :
  keyPressed key s = keyPressed (toLowerCase key) s
  /\ keyReleased key s = keyReleased (toLowerCase key) s.
Proof.
  unfold keyPressed, keyReleased. now rewrite toLowerCase_idempotent.
Qed.

Lemma keyboard_lookup_range (k : string) :
  keyboard_lookup k = Undefined
  \/ exists n, keyboard_lookup k = Num n /\ 60 <= n <= 72.
Proof.
  unfold keyboard_lookup.
  destruct (find _ KEYBOARD_MAP) as [[k' n] |] eqn:E; [| now left].
  right. exists n. split; [reflexivity |].
  apply find_some in E. destruct E as [Hin _]. cbn in Hin.
  repeat (destruct Hin as [Hin | Hin]; [injection Hin as _ <-; lia |]).
  contradiction.
Qed.

Lemma keyboard_lookup_not_null (k : string) :
  strict_neq (keyboard_lookup k) Null = true.
Proof.
  destruct (keyboard_lookup_range k) as [-> | (n & -> & _)]; reflexivity.
Qed.

(** X11: the table never yields [null], so the comparison with [null] in
    the key handlers filters nothing: every key press calls [playNote] and
    every key release calls [stopNote], with a note from 60 to 72 or with
    [undefined]. *)
Theorem key_handlers_always_reach_tracker (key : string) (s : state) :
  (keyboard_lookup (toLowerCase key) = Undefined
   \/ exists n, keyboard_lookup (toLowerCase key) = Num n /\ 60 <= n <= 72)
  /\ keyPressed key s
     = playNote (keyboard_lookup (toLowerCase key))
         (set_pressedKeys
            (set_add (pressedKeys s) (keyboard_lookup (toLowerCase key))) s)
  /\ keyReleased key s
     = stopNote (keyboard_lookup (toLowerCase key))
         (set_pressedKeys
            (set_delete (pressedKeys s) (keyboard_lookup (toLowerCase key)))
            s).
Proof.
  refine (conj (keyboard_lookup_range _) (conj _ _)).
  - unfold keyPressed. now rewrite keyboard_lookup_not_null.
  - unfold keyReleased. now rewrite keyboard_lookup_not_null.
Qed.

Lemma set_has_delete (l : list value) (k : value) :
  set_has (set_delete l k) k = false.
Proof.
  unfold set_has, set_delete.
  induction l as [| x rest IH]; cbn; [reflexivity |].
  destruct (value_eqb k x) eqn:E; cbn; [exact IH |].
  now rewrite E.
Qed.

(** X12: a key pressed and then released, with a sample loaded and its
    note idle, sends exactly a rate call, a play and a stop to the sound,
    and leaves the note idle and the key not pressed. *)
Theorem press_then_release (key : string) (s : state) :
  sampleLoaded s = true ->
  engaged s (keyboard_lookup (toLowerCase key)) = false ->
  audio (keyReleased key (keyPressed key s))
  = audio s
    ++ [(sound s,
         Rate (calculatePitchRatio s (keyboard_lookup (toLowerCase key))));
        (sound s, Play); (sound s, Stop)]
  /\ engaged (keyReleased key (keyPressed key s))
       (keyboard_lookup (toLowerCase key)) = false
  /\ set_has (pressedKeys (keyReleased key (keyPressed key s)))
       (keyboard_lookup (toLowerCase key)) = false.
Proof.
  intros Hsample Hidle.
  set (note := keyboard_lookup (toLowerCase key)) in *.
  assert (Hguard : strict_neq note Null = true)
    by apply keyboard_lookup_not_null.
  unfold keyReleased, keyPressed. fold note. rewrite !Hguard.
  refine (conj _ (conj _ _)).
  - unfold engaged in Hidle. unfold playNote.
    cbn [sampleLoaded isPlaying set_pressedKeys]. rewrite Hsample, Hidle.
    cbn [negb]. unfold stopNote.
    cbn [isPlaying call set_isPlaying set_pressedKeys].
    rewrite get_put, value_eqb_refl. cbn.
    now rewrite <- !app_assoc.
  - rewrite engaged_stopNote, value_eqb_refl. now rewrite andb_false_r.
  - rewrite pressedKeys_stopNote. cbn [pressedKeys set_pressedKeys].
    apply set_has_delete.
Qed.

Lemma press_then_release_witness :
  sampleLoaded two_keys_run = true
  /\ engaged two_keys_run (keyboard_lookup (toLowerCase "D")) = false
  /\ audio (keyReleased "D" (keyPressed "D" two_keys_run))
     = audio two_keys_run
       ++ [(Some 0%nat, Rate (calculatePitchRatio two_keys_run (Num 64)));
           (Some 0%nat, Play); (Some 0%nat, Stop)].
Proof.
  assert (Hsample : sampleLoaded two_keys_run = true)
    by (vm_compute; reflexivity).
  assert (Hidle : engaged two_keys_run (keyboard_lookup (toLowerCase "D"))
                  = false) by (vm_compute; reflexivity).
  refine (conj Hsample (conj Hidle _)).
  exact (proj1 (press_then_release "D" two_keys_run Hsample Hidle)).
Defined.

(** ** The mouse *)

Lemma white_offset_range (w : nat) :
  0 <= nth w WHITE_KEY_OFFSETS 0 <= 11.
Proof.
  do 7 (destruct w as [| w]; [cbn; lia |]).
  cbn. destruct w; lia.
Qed.

Lemma black_offset_range (b : nat) (offset : Z) :
  nth b BLACK_KEY_OFFSETS None = Some offset -> 0 <= offset <= 11.
Proof.
  do 7 (destruct b as [| b]; [cbn; intros H; inversion H; lia |]).
  cbn. now destruct b.
Qed.

(** X13: a click inside the band of the keys (y from 200 to 350) at a
    non-negative x always plays a note and marks it pressed; the note lies
    in the octave of twelve notes that x falls in, 280 pixels wide. *)
Theorem click_in_band_plays_a_note (x y : Z) (s : state) :
  0 <= x ->
  200 <= y <= 350 ->
  exists n,
    handlePianoClick x y s
    = playNote (Num n) (set_pressedKeys (set_add (pressedKeys s) (Num n)) s)
    /\ baseNote s + 12 * (x / 280) <= n <= baseNote s + 12 * (x / 280) + 11.
Proof.
  intros Hx Hy. unfold handlePianoClick.
  change (7 * KEY_WIDTH) with 280. change (200 + KEY_HEIGHT) with 350.
  change KEY_WIDTH with 40.
  replace ((y <? 200) || (350 <? y)) with false
    by (symmetry; apply orb_false_intro; [apply Z.ltb_ge | apply Z.ltb_ge];
        lia).
  pose proof (Z.rem_bound_pos x 280 Hx ltac:(lia)) as Hr.
  set (r := Z.rem x 280) in *. set (octave := x / 280).
  match goal with
  | |- context [match ?b with Some _ => _ | None => _ end] =>
      destruct b as [offset |] eqn:Hblack
  end.
  - exists (baseNote s + octave * 12 + offset). split; [reflexivity |].
    assert (Hoff : 0 <= offset <= 11).
    { destruct (_ && _) in Hblack; [| discriminate].
      now apply black_offset_range in Hblack. }
    lia.
  - assert (Hw : 0 <= r / 40 < 7).
    { split; [apply Z.div_pos; lia | apply Z.div_lt_upper_bound; lia]. }
    replace ((0 <=? r / 40) && (r / 40 <? 7)) with true
      by (symmetry; apply andb_true_intro;
          split; [apply Z.leb_le | apply Z.ltb_lt]; lia).
    eexists. split; [reflexivity |].
    pose proof (white_offset_range (Z.to_nat (r / 40))). lia.
Qed.

Lemma click_in_band_plays_a_note_witness :
  0 <= 570
  /\ 200 <= 300 <= 350
  /\ exists n,
       handlePianoClick 570 300 two_keys_run
       = playNote (Num n)
           (set_pressedKeys (set_add (pressedKeys two_keys_run) (Num n))
              two_keys_run)
       /\ baseNote two_keys_run + 12 * (570 / 280) <= n
          <= baseNote two_keys_run + 12 * (570 / 280) + 11.
Proof.
  assert (Hx : 0 <= 570) by lia.
  assert (Hy : 200 <= 300 <= 350) by lia.
  refine (conj Hx (conj Hy _)).
  exact (click_in_band_plays_a_note 570 300 two_keys_run Hx Hy).
Defined.

(** ** What the handlers leave alone *)

Lemma same_setup_refl (s : state) : same_setup s s.
Proof. now repeat split. Qed.

Lemma same_setup_trans (s1 s2 s3 : state) :
  same_setup s1 s2 -> same_setup s2 s3 -> same_setup s1 s3.
Proof.
  unfold same_setup. intros H12 H23.
  decompose [and] H12. decompose [and] H23. repeat split; congruence.
Qed.

Lemma same_setup_stopNote (i : value) (s : state) :
  same_setup s (stopNote i s).
Proof.
  unfold stopNote. destruct (truthy _); now repeat split.
Qed.

Lemma same_setup_playNote (i : value) (s : state) :
  same_setup s (playNote i s).
Proof.
  unfold playNote. destruct (sampleLoaded s); [| apply same_setup_refl].
  cbn [negb]. destruct (truthy _); [| now repeat split].
  apply (same_setup_trans _ (stopNote i s)); [apply same_setup_stopNote |].
  now repeat split.
Qed.

Lemma same_setup_stop_all (keys : list value) :
  forall s, same_setup s (fold_left (fun st k => stopNote k st) keys s).
Proof.
  induction keys as [| k rest IH]; intros s; cbn [fold_left].
  - apply same_setup_refl.
  - apply (same_setup_trans _ (stopNote k s));
      [apply same_setup_stopNote | apply IH].
Qed.

Lemma step_input_same_setup (e : event) (s : state) :
  is_input e = true -> same_setup s (step s e).
Proof.
  destruct e as [k | k | x y | | f | text | f | h]; cbn [is_input step];
    intros H; try discriminate.
  - unfold keyPressed. destruct (strict_neq _ _); [| apply same_setup_refl].
    apply (same_setup_trans _ (set_pressedKeys
                                 (set_add (pressedKeys s)
                                    (keyboard_lookup (toLowerCase k))) s));
      [now repeat split | apply same_setup_playNote].
  - unfold keyReleased. destruct (strict_neq _ _); [| apply same_setup_refl].
    apply (same_setup_trans _ (set_pressedKeys
                                 (set_delete (pressedKeys s)
                                    (keyboard_lookup (toLowerCase k))) s));
      [now repeat split | apply same_setup_stopNote].
  - unfold handlePianoClick. destruct (_ || _); [apply same_setup_refl |].
    match goal with
    | |- context [match ?b with Some _ => _ | None => _ end] => destruct b
    end.
    + eapply same_setup_trans; [| apply same_setup_playNote].
      now repeat split.
    + destruct (_ && _); [| apply same_setup_refl].
      eapply same_setup_trans; [| apply same_setup_playNote].
      now repeat split.
  - unfold mouseReleased.
    apply (same_setup_trans _ (set_pressedKeys [] s));
      [now repeat split | apply same_setup_stop_all].
Qed.

(** X14: no run of keyboard and mouse events writes the sample, the
    pitched samples, the scale table, the base note, the loaded flags or
    the errors. *)
Theorem input_events_keep_setup (es : list event) (s : state) :
  forallb is_input es = true -> same_setup s (run s es).
Proof.
  revert s. induction es as [| e rest IH]; intros s H; cbn [run fold_left].
  - apply same_setup_refl.
  - cbn [forallb] in H. apply andb_prop in H. destruct H as [He Hrest].
    apply (same_setup_trans _ (step s e));
      [now apply step_input_same_setup | now apply IH].
Qed.

Lemma input_events_keep_setup_witness :
  same_setup two_keys_run
    (run two_keys_run
       [MousePressed 310 250; KeyPressed "k"; MouseReleased;
        KeyReleased "k"]).
Proof.
  apply input_events_keep_setup. reflexivity.
Defined.

(** ** Before a sample is loaded *)

Lemma quiet_playNote (i : value) (s : state) : quiet s -> playNote i s = s.
Proof. intros (_ & H & _). unfold playNote. now rewrite H. Qed.

Lemma quiet_stopNote (i : value) (s : state) : quiet s -> stopNote i s = s.
Proof. intros (_ & _ & _ & H). unfold stopNote. now rewrite H. Qed.

Lemma quiet_pressed (k : list value) (s : state) :
  quiet s -> quiet (set_pressedKeys k s).
Proof. intros H. exact H. Qed.

Lemma quiet_step (s : state) (e : event) :
  is_sound_loaded e = false -> quiet s -> quiet (step s e).
Proof.
  intros He H.
  destruct e as [k | k | x y | | f | text | f | h]; cbn [step];
    try discriminate.
  - unfold keyPressed. destruct (strict_neq _ _); [| exact H].
    now rewrite quiet_playNote.
  - unfold keyReleased. destruct (strict_neq _ _); [| exact H].
    now rewrite quiet_stopNote.
  - unfold handlePianoClick. destruct (_ || _); [exact H |].
    match goal with
    | |- context [match ?b with Some _ => _ | None => _ end] => destruct b
    end.
    + now rewrite quiet_playNote.
    + destruct (_ && _); [| exact H]. now rewrite quiet_playNote.
  - unfold mouseReleased. cbn [isPlaying set_pressedKeys].
    destruct H as (H1 & H2 & H3 & H4). rewrite H4. cbn.
    now repeat split.
  - unfold handleSclFile. destruct (negb _); exact H.
  - unfold reader_onload.
    destruct (_ <? _)%nat; [exact H |].
    destruct (_ || _); [exact H |].
    destruct (_ <? _)%nat; [| exact H].
    cbn [sampleLoaded set_scaleLoaded set_scaleRatios].
    destruct H as (H1 & H2 & H3 & H4). rewrite H2. now repeat split.
  - now destruct (handleAudioFile f).
Qed.

Lemma quiet_run (es : list event) :
  forall s,
    forallb (fun e => negb (is_sound_loaded e)) es = true ->
    quiet s -> quiet (run s es).
Proof.
  induction es as [| e rest IH]; intros s Hes H; cbn [run fold_left].
  - exact H.
  - cbn [forallb] in Hes. apply andb_prop in Hes. destruct Hes as [He Hrest].
    apply IH; [exact Hrest |].
    apply quiet_step; [now apply negb_true_iff | exact H].
Qed.

(** X15: as long as no sound has been loaded, no key, click or scale file
    makes the program call the sound object or engage a note. *)
Theorem silent_until_sample_loaded (es : list event) :
  forallb (fun e => negb (is_sound_loaded e)) es = true ->
  audio (run (setup init) es) = []
  /\ forall i, engaged (run (setup init) es) i = false.
Proof.
  intros Hes.
  assert (H0 : quiet (setup init)) by now repeat split.
  destruct (quiet_run es (setup init) Hes H0) as (_ & _ & Haudio & Hplaying).
  split; [exact Haudio |].
  intros i. unfold engaged. now rewrite Hplaying.
Qed.

Lemma silent_until_sample_loaded_witness :
  audio (run (setup init)
           [KeyPressed "a"; MousePressed 310 250; SclFileChosen fifth_scl;
            ReaderLoaded (file_text fifth_scl); KeyReleased "a";
            MouseReleased]) = []
  /\ forall i,
       engaged (run (setup init)
                  [KeyPressed "a"; MousePressed 310 250;
                   SclFileChosen fifth_scl;
                   ReaderLoaded (file_text fifth_scl); KeyReleased "a";
                   MouseReleased]) i = false.
Proof.
  apply silent_until_sample_loaded. reflexivity.
Defined.

(** ** The sound object is there when it is called *)

Lemma sample_present_same (s s' : state) :
  sound s' = sound s -> sampleLoaded s' = sampleLoaded s ->
  isPlaying s' = isPlaying s ->
  sample_present s -> sample_present s'.
Proof.
  unfold sample_present, engaged. intros -> -> ->. trivial.
Qed.

Lemma sample_present_stopNote (i : value) (s : state) :
  sample_present s -> sample_present (stopNote i s).
Proof.
  intros [Hsound Hplay].
  destruct (same_setup_stopNote i s) as (H1 & _ & H2 & _).
  split.
  - now rewrite H1, H2.
  - intros j Hj. rewrite H2. apply (Hplay j).
    rewrite engaged_stopNote in Hj. now apply andb_prop in Hj.
Qed.

Lemma sample_present_playNote (i : value) (s : state) :
  sample_present s -> sample_present (playNote i s).
Proof.
  intros [Hsound Hplay].
  destruct (same_setup_playNote i s) as (H1 & _ & H2 & _).
  split.
  - now rewrite H1, H2.
  - intros j Hj. rewrite H2. rewrite engaged_playNote in Hj.
    destruct (sampleLoaded s); [reflexivity | now apply (Hplay j)].
Qed.

Lemma sample_present_stop_all (keys : list value) :
  forall s,
    sample_present s ->
    sample_present (fold_left (fun st k => stopNote k st) keys s).
Proof.
  induction keys as [| k rest IH]; intros s H; cbn [fold_left].
  - exact H.
  - apply IH. now apply sample_present_stopNote.
Qed.

Lemma sample_present_createPitchedSamples (s : state) :
  sample_present s -> sample_present (createPitchedSamples s).
Proof.
  destruct (createPitchedSamples_frame s) as (players & rates & _ & ->).
  now apply sample_present_same.
Qed.

Lemma sample_present_step (s : state) (e : event) :
  sample_present s -> sample_present (step s e).
Proof.
  intros H. destruct e as [k | k | x y | | f | text | f | h]; cbn [step].
  - unfold keyPressed. destruct (strict_neq _ _); [| exact H].
    apply sample_present_playNote. now apply (sample_present_same s).
  - unfold keyReleased. destruct (strict_neq _ _); [| exact H].
    apply sample_present_stopNote. now apply (sample_present_same s).
  - unfold handlePianoClick. destruct (_ || _); [exact H |].
    match goal with
    | |- context [match ?b with Some _ => _ | None => _ end] => destruct b
    end.
    + apply sample_present_playNote. now apply (sample_present_same s).
    + destruct (_ && _); [| exact H].
      apply sample_present_playNote. now apply (sample_present_same s).
  - unfold mouseReleased. apply sample_present_stop_all.
    now apply (sample_present_same s).
  - unfold handleSclFile. destruct (negb _); [exact H |].
    now apply (sample_present_same s).
  - unfold reader_onload.
    destruct (_ <? _)%nat; [now apply (sample_present_same s) |].
    destruct (_ || _); [now apply (sample_present_same s) |].
    destruct (_ <? _)%nat; [| now apply (sample_present_same s)].
    match goal with
    | |- sample_present (if ?b then _ else _) => destruct b
    end.
    + apply sample_present_createPitchedSamples.
      now apply (sample_present_same s).
    + now apply (sample_present_same s).
  - now destruct (handleAudioFile f).
  - unfold sound_loaded. apply sample_present_createPitchedSamples.
    split; [discriminate | reflexivity].
Qed.

Lemma scaleLoaded_step (s : state) (e : event) :
  scaleLoaded s = true -> scaleLoaded (step s e) = true.
Proof.
  intros H.
  destruct (is_input e) eqn:He.
  - destruct (step_input_same_setup e s He) as (_ & _ & _ & -> & _).
    exact H.
  - destruct e as [k | k | x y | | f | text | f | h]; cbn [step];
      try discriminate.
    + unfold handleSclFile. now destruct (negb _).
    + unfold reader_onload.
      destruct (_ <? _)%nat; [exact H |].
      destruct (_ || _) eqn:Hc; [exact H |].
      rewrite push_ratios_app, <- app_assoc. cbn [app].
      rewrite pushed_table_length.
      match goal with
      | |- context [if ?b then createPitchedSamples ?st else _] =>
          destruct b;
          [destruct (createPitchedSamples_frame st)
             as (players & rates & _ & ->) |]
      end; reflexivity.
    + now destruct (handleAudioFile f).
    + unfold sound_loaded.
      match goal with
      | |- context [createPitchedSamples ?st] =>
          destruct (createPitchedSamples_frame st)
            as (players & rates & _ & ->)
      end. exact H.
Qed.

(** X16: in every reachable state the scale is marked loaded, a sample
    that is marked loaded is there, and so is the sample of every note
    that is engaged: [playNote] and [stopNote] never call a method of an
    undefined [sound]. *)
Theorem sound_is_there_when_called (s : state) :
  reachable s ->
  scaleLoaded s = true
  /\ (sampleLoaded s = true -> sound s <> None)
  /\ (forall i, engaged s i = true -> sound s <> None).
Proof.
  intros [es ->]. unfold run.
  assert (H0 : scaleLoaded (setup init) = true /\ sample_present (setup init)).
  { split; [reflexivity |]. split; [discriminate |].
    intros i Hi. discriminate Hi. }
  revert H0. generalize (setup init).
  induction es as [| e rest IH]; intros s0 [Hscale Hpresent];
    cbn [fold_left].
  - destruct Hpresent as [Hsound Hplay].
    refine (conj Hscale (conj Hsound _)).
    intros i Hi. now apply Hsound, (Hplay i).
  - apply IH. split;
      [now apply scaleLoaded_step | now apply sample_present_step].
Qed.

Lemma sound_is_there_when_called_witness :
  reachable two_keys_run
  /\ scaleLoaded two_keys_run = true
  /\ (sampleLoaded two_keys_run = true -> sound two_keys_run <> None)
  /\ (forall i, engaged two_keys_run i = true -> sound two_keys_run <> None).
Proof.
  split; [exact two_keys_run_reachable |].
  exact (sound_is_there_when_called two_keys_run two_keys_run_reachable).
Defined.

(** ** The pitched samples *)

Lemma seq_from (a n : nat) : seq a n = map (Nat.add a) (seq 0 n).
Proof.
  revert a. induction n as [| n IH]; intros a; cbn [seq map].
  - reflexivity.
  - rewrite Nat.add_0_r. f_equal.
    rewrite (IH (S a)), (IH 1%nat), map_map.
    apply map_ext. intros i. lia.
Qed.

(** The note numbers of the two loops of [createPitchedSamples] are the
    consecutive numbers from the base note on, twice the table length of
    them. *)
Lemma pitched_note_numbers (base : Z) (n : nat) :
  flat_map
    (fun octave =>
       map (fun i => base + octave * Z.of_nat n + Z.of_nat i) (seq 0 n))
    [0; 1]
  = map (fun k => base + Z.of_nat k) (seq 0 (2 * n)).
Proof.
  cbn [flat_map]. rewrite app_nil_r.
  replace (2 * n)%nat with (n + n)%nat by lia.
  rewrite seq_app, map_app. f_equal.
  - apply map_ext. intros i. lia.
  - rewrite (seq_from (0 + n) n), map_map.
    apply map_ext. intros i. lia.
Qed.

Lemma NoDup_note_numbers (base : Z) (n : nat) :
  NoDup (map (fun k => base + Z.of_nat k) (seq 0 n)).
Proof.
  apply NoDup_map_NoDup_ForallPairs; [| apply seq_NoDup].
  intros a b _ _ H. lia.
Qed.

Lemma existsb_not_In (n : Z) (l : list Z) :
  ~ In n l -> existsb (Z.eqb n) l = false.
Proof.
  intros H. destruct (existsb (Z.eqb n) l) eqn:E; [| reflexivity].
  apply existsb_exists in E. destruct E as (x & Hin & Heq).
  apply Z.eqb_eq in Heq. now subst x.
Qed.

Lemma pitch_samples_exact (notes : list Z) :
  forall st,
    NoDup (soundPlayers st ++ notes) ->
    fold_left pitch_sample notes st
    = mkState (sound st) (soundPlayers st ++ notes) (isPlaying st)
        (sampleLoaded st) (scaleLoaded st) (pressedKeys st) (scaleRatios st)
        (baseNote st)
        (audio st
         ++ map (fun n => (sound st, Rate (calculatePitchRatio st (Num n))))
              notes)
        (console_error st).
Proof.
  induction notes as [| n rest IH]; intros st Hnodup; cbn [fold_left map].
  - rewrite !app_nil_r. apply state_eta.
  - assert (Hfresh : existsb (Z.eqb n) (soundPlayers st) = false).
    { apply existsb_not_In. intros Hin.
      apply NoDup_remove_2 in Hnodup. apply Hnodup, in_or_app. now left. }
    unfold pitch_sample at 2. cbn [soundPlayers call]. rewrite Hfresh.
    rewrite IH.
    + cbn. now rewrite <- !app_assoc.
    + cbn. now rewrite <- app_assoc.
Qed.

(** X17: with a sound and a scale loaded, [createPitchedSamples] replaces
    the pitched samples by those of the consecutive notes from the base
    note on, twice the table length of them, and makes one rate call for
    each, at the ratio the resolver gives that note, and no other call. *)
Theorem createPitchedSamples_covers_two_tables (s : state) :
  sound s <> None ->
  scaleLoaded s = true ->
  soundPlayers (createPitchedSamples s)
  = map (fun k => baseNote s + Z.of_nat k)
        (seq 0 (2 * List.length (scaleRatios s)))
  /\ audio (createPitchedSamples s)
     = audio s
       ++ map (fun k =>
                 (sound s,
                  Rate (calculatePitchRatio s (Num (baseNote s + Z.of_nat k)))))
            (seq 0 (2 * List.length (scaleRatios s)))
  /\ isPlaying (createPitchedSamples s) = isPlaying s.
Proof.
  intros Hsound Hscale. unfold createPitchedSamples.
  destruct (sound s) as [h |] eqn:Hs; [| contradiction].
  rewrite Hscale. cbn [negb]. rewrite pitched_note_numbers.
  rewrite pitch_samples_exact
    by (cbn [soundPlayers set_soundPlayers app]; apply NoDup_note_numbers).
  cbn. now rewrite Hs, map_map.
Qed.

Lemma createPitchedSamples_covers_two_tables_witness :
  sound two_keys_run <> None
  /\ scaleLoaded two_keys_run = true
  /\ soundPlayers (createPitchedSamples two_keys_run)
     = map (fun k => baseNote two_keys_run + Z.of_nat k)
           (seq 0 (2 * List.length (scaleRatios two_keys_run))).
Proof.
  assert (Hsound : sound two_keys_run <> None) by (vm_compute; discriminate).
  assert (Hscale : scaleLoaded two_keys_run = true) by (vm_compute; reflexivity).
  refine (conj Hsound (conj Hscale _)).
  exact (proj1 (createPitchedSamples_covers_two_tables two_keys_run
                  Hsound Hscale)).
Defined.

(** ** Where a click lands *)

Lemma click_split (mx octave r : Z) :
  0 <= octave -> 0 <= r < 280 -> mx = 280 * octave + r ->
  mx / 280 = octave /\ Z.rem mx 280 = r.
Proof.
  intros Ho Hr ->. split.
  - symmetry. apply (Z.div_unique _ 280 octave r); [left; lia | reflexivity].
  - rewrite Z.rem_mod_nonneg by lia.
    symmetry. apply (Z.mod_unique _ 280 octave r); [left; lia | reflexivity].
Qed.

Lemma black_index_bound (b : nat) (offset : Z) :
  nth b BLACK_KEY_OFFSETS None = Some offset -> (b <= 5)%nat.
Proof.
  do 6 (destruct b as [| b]; [lia |]).
  cbn. destruct b as [| b]; [discriminate |]. now destruct b.
Qed.

(** X18: in any octave from 0 on, a click in the upper band (y from 200 to
    290) whose x lies from 28 to 67 pixels right of the start of key
    position [j] plays the black key of that position when there is one:
    the zone is 40 pixels wide. *)
Theorem click_zone_of_black_key (s : state) (octave j offset mx my : Z) :
  0 <= octave ->
  0 <= j ->
  nth (Z.to_nat j) BLACK_KEY_OFFSETS None = Some offset ->
  280 * octave + 40 * j + 28 <= mx < 280 * octave + 40 * j + 68 ->
  200 <= my <= 290 ->
  handlePianoClick mx my s
  = playNote (Num (baseNote s + octave * 12 + offset))
      (set_pressedKeys
         (set_add (pressedKeys s) (Num (baseNote s + octave * 12 + offset)))
         s).
Proof.
  intros Ho Hj Hnth Hmx Hmy.
  assert (Hj5 : j <= 5)
    by (apply black_index_bound in Hnth; lia).
  destruct (click_split mx octave (mx - 280 * octave) Ho ltac:(lia)
              ltac:(lia)) as [Hdiv Hrem].
  unfold handlePianoClick.
  change (7 * KEY_WIDTH) with 280. change (200 + KEY_HEIGHT) with 350.
  change KEY_WIDTH with 40.
  rewrite Hdiv, Hrem.
  replace ((my <? 200) || (350 <? my)) with false
    by (symmetry; apply orb_false_intro; apply Z.ltb_ge; lia).
  assert (Hidx : (mx - 280 * octave - 28) / 40 = j).
  { symmetry.
    apply (Z.div_unique _ 40 j (mx - 280 * octave - 28 - 40 * j));
      [left; lia | lia]. }
  rewrite Hidx.
  replace ((my <=? 200 + 90) && (28 <=? mx - 280 * octave)
           && (0 <=? j) && (j <? 7)) with true.
  - now rewrite Hnth.
  - symmetry. repeat (apply andb_true_intro; split);
      first [apply Z.leb_le | apply Z.ltb_lt]; lia.
Qed.

Lemma click_zone_of_black_key_witness :
  nth (Z.to_nat 0) BLACK_KEY_OFFSETS None = Some 1
  /\ 280 * 1 + 40 * 0 + 28 <= 340 < 280 * 1 + 40 * 0 + 68
  /\ handlePianoClick 340 250 two_keys_run
     = playNote (Num (baseNote two_keys_run + 1 * 12 + 1))
         (set_pressedKeys
            (set_add (pressedKeys two_keys_run)
               (Num (baseNote two_keys_run + 1 * 12 + 1)))
            two_keys_run).
Proof.
  assert (Hnth : nth (Z.to_nat 0) BLACK_KEY_OFFSETS None = Some 1)
    by reflexivity.
  assert (Hmx : 280 * 1 + 40 * 0 + 28 <= 340 < 280 * 1 + 40 * 0 + 68)
    by lia.
  refine (conj Hnth (conj Hmx _)).
  apply (click_zone_of_black_key two_keys_run 1 0 1 340 250);
    [lia | lia | exact Hnth | exact Hmx | lia].
Defined.

(** X19: in any octave from 0 on, a click below the black keys (y above
    290, up to 350) plays the white key whose 40 pixels x falls in. *)
Theorem click_zone_of_white_key (s : state) (octave j mx my : Z) :
  0 <= octave ->
  0 <= j < 7 ->
  280 * octave + 40 * j <= mx < 280 * octave + 40 * j + 40 ->
  290 < my <= 350 ->
  handlePianoClick mx my s
  = playNote
      (Num (baseNote s + octave * 12
            + nth (Z.to_nat j) WHITE_KEY_OFFSETS 0))
      (set_pressedKeys
         (set_add (pressedKeys s)
            (Num (baseNote s + octave * 12
                  + nth (Z.to_nat j) WHITE_KEY_OFFSETS 0)))
         s).
Proof.
  intros Ho Hj Hmx Hmy.
  destruct (click_split mx octave (mx - 280 * octave) Ho ltac:(lia)
              ltac:(lia)) as [Hdiv Hrem].
  unfold handlePianoClick.
  change (7 * KEY_WIDTH) with 280. change (200 + KEY_HEIGHT) with 350.
  change KEY_WIDTH with 40.
  rewrite Hdiv, Hrem.
  replace ((my <? 200) || (350 <? my)) with false
    by (symmetry; apply orb_false_intro; apply Z.ltb_ge; lia).
  replace (my <=? 200 + 90) with false by (symmetry; apply Z.leb_gt; lia).
  cbn [andb].
  assert (Hidx : (mx - 280 * octave) / 40 = j).
  { symmetry.
    apply (Z.div_unique _ 40 j (mx - 280 * octave - 40 * j));
      [left; lia | lia]. }
  rewrite Hidx.
  replace ((0 <=? j) && (j <? 7)) with true; [reflexivity |].
  symmetry. apply andb_true_intro.
  split; [apply Z.leb_le | apply Z.ltb_lt]; lia.
Qed.

Lemma click_zone_of_white_key_witness :
  280 * 2 + 40 * 0 <= 570 < 280 * 2 + 40 * 0 + 40
  /\ handlePianoClick 570 300 two_keys_run
     = playNote (Num 84)
         (set_pressedKeys (set_add (pressedKeys two_keys_run) (Num 84))
            two_keys_run).
Proof.
  assert (Hmx : 280 * 2 + 40 * 0 <= 570 < 280 * 2 + 40 * 0 + 40) by lia.
  split; [exact Hmx |].
  apply (click_zone_of_white_key two_keys_run 2 0 570 300);
    [lia | lia | exact Hmx | lia].
Defined.

(** ** What the keyboard shows *)

(** X20: [drawPiano] draws each of the fourteen white keys and ten black
    keys of its two octaves with the highlight fill exactly when the note
    of the key is among the pressed keys, and with its plain fill (white
    255, black 0) otherwise. *)
Theorem drawn_key_shows_pressed (s : state) (octave : Z) (i : nat) :
  octave = 0 \/ octave = 1 ->
  (i < 7)%nat ->
  fill_of_rect (drawPiano s) None
    (Z.of_nat i * 40 + octave * 280) 200 40 150
  = Some (if set_has (pressedKeys s)
               (Num (baseNote s + octave * 12 + nth i WHITE_KEY_OFFSETS 0))
          then Color 200 200 255 else Gray 255)
  /\ forall offset,
       nth i BLACK_KEY_OFFSETS None = Some offset ->
       fill_of_rect (drawPiano s) None
         (Z.of_nat i * 40 + 28 + octave * 280) 200 24 90
       = Some (if set_has (pressedKeys s)
                    (Num (baseNote s + octave * 12 + offset))
               then Color 150 150 200 else Gray 0).
Proof.
  intros Hoctave Hi. unfold drawPiano.
  remember (set_has (pressedKeys s)) as has eqn:Hhas. clear Hhas.
  remember (baseNote s) as base eqn:Hbase. clear Hbase.
  destruct Hoctave as [-> | ->];
    do 7 (destruct i as [| i]; [| apply Nat.succ_lt_mono in Hi];
          [split;
           [destruct (scaleLoaded s); reflexivity
           | intros offset Hoffset; cbn in Hoffset;
             first [discriminate Hoffset
                   | injection Hoffset as <-;
                     destruct (scaleLoaded s); reflexivity]] |]);
    lia.
Qed.

Lemma drawn_key_shows_pressed_witness :
  (0 = 0 \/ 0 = 1)
  /\ (1 < 7)%nat
  /\ fill_of_rect (drawPiano two_keys_run) None
       (Z.of_nat 1 * 40 + 0 * 280) 200 40 150
     = Some (Color 200 200 255)
  /\ fill_of_rect (drawPiano two_keys_run) None
       (Z.of_nat 1 * 40 + 28 + 0 * 280) 200 24 90
     = Some (Gray 0).
Proof.
  assert (Hoctave : 0 = 0 \/ 0 = 1) by (left; reflexivity).
  assert (Hi : (1 < 7)%nat) by lia.
  pose proof (drawn_key_shows_pressed two_keys_run 0 1 Hoctave Hi) as H.
  refine (conj Hoctave (conj Hi (conj (proj1 H) _))).
  exact (proj2 H 3 eq_refl).
Defined.
